(** * Tile rearrangement (qualifier.py): model and verified properties

    The development follows [src/qualifier/qualifier.py]:
    - [valid_input]      (lines 3-28), the validator;
    - [rearrange_tiles]  (lines 31-76), which opens the image, validates,
      slices it into tiles, stitches them back following [ordering] and
      saves the canvas.

    Python integers are unbounded, so they are [Z]; [//] and [%] are floor
    division and the remainder with the sign of the divisor, which is what
    [Z.div] and [Z.modulo] compute, except that Python raises
    [ZeroDivisionError] on a zero divisor.  Exceptions are values of a
    [result] type that is threaded through the statements in program order. *)

From stdpp Require Import gmap strings list.
From Stdlib Require Import ZArith Lia.

Local Open Scope Z_scope.

(** ** Python: exceptions, arithmetic, sequences, loops *)

Module Py.

(** The exception classes that the two functions can let escape. *)
Inductive exn : Type :=
| ValueError (msg : string)
| ZeroDivisionError
| IndexError
| FileNotFoundError.

Inductive result (A : Type) : Type :=
| Ok (a : A)
| Raise (e : exn).
Global Arguments Ok {A} a.
Global Arguments Raise {A} e.

Global Instance result_ret : MRet result := fun A a => Ok a.
Global Instance result_bind : MBind result := fun A B f m =>
  match m with
  | Ok a => f a
  | Raise e => Raise e
  end.

Global Instance result_fmap : FMap result := fun A B f m =>
  match m with
  | Ok a => Ok (f a)
  | Raise e => Raise e
  end.

(** [a // b] *)
Definition floordiv (a b : Z) : result Z :=
  if bool_decide (b = 0) then Raise ZeroDivisionError else Ok (a / b).

(** [a % b] *)
Definition modulo (a b : Z) : result Z :=
  if bool_decide (b = 0) then Raise ZeroDivisionError else Ok (a mod b).

(** [len(l)] *)
Definition len {A} (l : list A) : Z := Z.of_nat (length l).

(** [len(set(l))] for a list of integers. *)
Definition len_set (l : list Z) : Z :=
  Z.of_nat (size (list_to_set l : gset Z)).

(** [l[i]]: a negative index counts from the end of the list, and an index
    outside [-len(l), len(l)) raises [IndexError]. *)
Definition getitem {A} (l : list A) (i : Z) : result A :=
  let k := if bool_decide (i < 0) then i + len l else i in
  if bool_decide (k < 0) then Raise IndexError
  else from_option Ok (Raise IndexError) (l !! Z.to_nat k).

(** [range(n)]: 0, 1, ..., n-1, empty when [n <= 0]. *)
Definition range (n : Z) : list Z := seqZ 0 n.

(** [for x in xs: body], the loop state passed along; an exception raised
    by the body leaves the loop. *)
Fixpoint for_in {A S} (xs : list A) (body : A → S → result S) (s : S)
  : result S :=
  match xs with
  | [] => Ok s
  | x :: xs' =>
      match body x s with
      | Ok s' => for_in xs' body s'
      | Raise e => Raise e
      end
  end.

End Py.
Import Py.

(** ** The validator *)

(** [valid_input], lines 21-28.  [image_size] and [tile_size] are
    (width, height) pairs, so index 0 is the first and index 1 the second
    component. *)
Definition valid_input (image_size tile_size : Z * Z) (ordering : list Z)
  : result bool :=
  R ← floordiv image_size.2 tile_size.2;
  C ← floordiv image_size.1 tile_size.1;
  let tile_count := R * C in
  can_split ←
    (m0 ← modulo image_size.1 tile_size.1;
     if bool_decide (m0 = 0)
     then m1 ← modulo image_size.2 tile_size.2; Ok (bool_decide (m1 = 0))
     else Ok false);
  let can_order :=
    bool_decide (len ordering = len_set ordering)
    && bool_decide (len ordering = tile_count) in
  Ok (can_split && can_order).

(** ** The image library

    Pillow is an external collaborator; what [rearrange_tiles] uses of it is
    modelled here.  An image has a colour mode, a number of columns and of
    rows (natural numbers: there is no image of negative size) and one pixel
    value per coordinate; (0,0) is the top left corner.  Pixel values are kept
    abstract: the only one the library makes up itself is the value of
    colour 0 in a given mode, with which [Image.new] fills a canvas and
    [crop] fills what lies outside the source. *)

Module PIL.

Class Pixel (pixel : Type) := blank : string → pixel.

Record Image (pixel : Type) : Type := {
  mode : string;
  xsize : nat;
  ysize : nat;
  pix : Z → Z → pixel
}.
Global Arguments mode {pixel} _.
Global Arguments xsize {pixel} _.
Global Arguments ysize {pixel} _.
Global Arguments pix {pixel} _ _ _.

Section ops.
Context `{Pixel pixel}.

(** Modelled from the spec: what opening an image gives, its width, height
    and colour mode ("open image from path -> (width, height, color-mode)").
    [img.width], [img.height] *)
Definition width (im : Image pixel) : Z := Z.of_nat (xsize im).
Definition height (im : Image pixel) : Z := Z.of_nat (ysize im).

(** [img.size] *)
Definition size (im : Image pixel) : Z * Z := (width im, height im).

Definition inside (im : Image pixel) (x y : Z) : bool :=
  bool_decide (0 ≤ x < width im ∧ 0 ≤ y < height im).

(** The pixel of [im] at (x, y), if the image has one there. *)
Definition pixel_at (im : Image pixel) (x y : Z) : option pixel :=
  if inside im x y then Some (pix im x y) else None.

(** Equality of two images pixel for pixel. *)
Definition same_pixels (a b : Image pixel) : Prop :=
  mode a = mode b ∧ size a = size b ∧
  ∀ x y, pixel_at a x y = pixel_at b x y.

(** Modelled from the spec: "crop rectangular region -> pixel buffer",
    [im.crop((left, top, right, bottom))].  The tile has the size of the box
    and the pixels of the source under it. *)
Definition crop (im : Image pixel) (box : Z * Z * Z * Z) : Image pixel :=
  let '(x0, y0, x1, y1) := box in
  {| mode := mode im;
     xsize := Z.to_nat (x1 - x0);
     ysize := Z.to_nat (y1 - y0);
     pix := λ x y, if inside im (x0 + x) (y0 + y)
                   then pix im (x0 + x) (y0 + y)
                   else blank (mode im) |}.

(** Modelled from the spec: "create blank canvas of given size/mode",
    [Image.new(mode, size)]. *)
Definition new (m : string) (sz : Z * Z) : Image pixel :=
  {| mode := m; xsize := Z.to_nat sz.1; ysize := Z.to_nat sz.2;
     pix := λ _ _, blank m |}.

(** Modelled from the spec: "paste pixel buffer at offset",
    [canvas.paste(im, (x0, y0))]: the canvas after the call, which holds the
    pixels of [im] in the rectangle of the size of [im] whose top left
    corner is (x0, y0), and its former pixels elsewhere. *)
Definition paste (canvas im : Image pixel) (xy : Z * Z) : Image pixel :=
  {| mode := mode canvas;
     xsize := xsize canvas;
     ysize := ysize canvas;
     pix := λ x y, if inside im (x - xy.1) (y - xy.2)
                   then pix im (x - xy.1) (y - xy.2)
                   else pix canvas x y |}.

(** Modelled from the spec: the image files, by path.  [Image.open(path)]
    fails on a path that holds no image; [im.save(path)] ("encode canvas to
    file") creates or replaces the file in one step.  A failure of the
    encoder is the library's own and is not part of the model. *)
Definition open (fs : gmap string (Image pixel)) (path : string)
  : result (Image pixel) :=
  from_option Ok (Raise FileNotFoundError) (fs !! path).

Definition save (im : Image pixel) (path : string)
    (fs : gmap string (Image pixel)) : gmap string (Image pixel) :=
  <[path := im]> fs.
End ops.

Global Arguments crop : simpl never.
Global Arguments new : simpl never.
Global Arguments paste : simpl never.

End PIL.

(** ** The rearranger *)

Definition invalid_message : string :=
  "The tile size or ordering are not valid for the given image".

Section rearranger.
Context `{PIL.Pixel pixel}.

(** Lines 56-65: the tiles of the image, row by row. *)
Definition extract_tiles (img : PIL.Image pixel) (tW tH R C : Z)
  : list (PIL.Image pixel) :=
  foldl (λ tiles r,
    foldl (λ tiles c,
      let left := c * tW in
      let top := r * tH in
      let right := left + tW in
      let bottom := top + tH in
      let tile := PIL.crop img (left, top, right, bottom) in
      tiles ++ [tile]) tiles (range C)) [] (range R).

(** Lines 72-74: the body of the second pair of loops at row [r] and
    column [c]; it returns the canvas after the paste. *)
Definition paste_tile (tiles : list (PIL.Image pixel)) (ordering : list Z)
    (tW tH C r c : Z) (output : PIL.Image pixel) : result (PIL.Image pixel) :=
  let i := r * C + c in
  if bool_decide (i < len tiles) then
    j ← getitem ordering i;
    tile ← getitem tiles j;
    Ok (PIL.paste output tile (c * tW, r * tH))
  else Ok output.

(** Lines 70-74: the canvas after the tiles are pasted. *)
Definition stitch (tiles : list (PIL.Image pixel)) (ordering : list Z)
    (tW tH R C : Z) (output : PIL.Image pixel) : result (PIL.Image pixel) :=
  for_in (range R) (λ r output,
    for_in (range C) (λ c output,
      paste_tile tiles ordering tW tH C r c output) output) output.

(** Lines 43-74: what [rearrange_tiles] does with the opened image, up to
    the canvas that it saves. *)
Definition rearrange (img : PIL.Image pixel) (tile_size : Z * Z)
    (ordering : list Z) : result (PIL.Image pixel) :=
  ok ← valid_input (PIL.size img) tile_size ordering;
  if negb ok then Raise (ValueError invalid_message)
  else
    let '(W, H) := PIL.size img in
    let '(tW, tH) := tile_size in
    R ← floordiv H tH;
    C ← floordiv W tW;
    let tiles := extract_tiles img tW tH R C in
    let output := PIL.new (PIL.mode img) (PIL.size img) in
    stitch tiles ordering tW tH R C output.

(** [rearrange_tiles], lines 42-76, on the image files [fs]: the outcome
    of the call and the files after it. *)
Definition rearrange_tiles (image_path : string) (tile_size : Z * Z)
    (ordering : list Z) (out_path : string)
    (fs : gmap string (PIL.Image pixel))
  : result () * gmap string (PIL.Image pixel) :=
  match PIL.open fs image_path with
  | Raise e => (Raise e, fs)
  | Ok img =>
      match rearrange img tile_size ordering with
      | Raise e => (Raise e, fs)
      | Ok output => (Ok (), PIL.save output out_path fs)
      end
  end.

End rearranger.

(** ** Vocabulary of the statements *)

(** The (row, column) pairs in the order in which the two nested loops
    [for r in range(R): for c in range(C):] visit them. *)
Definition grid (R C : Z) : list (Z * Z) :=
  mjoin ((λ r, pair r <$> range C) <$> range R).

(** The crop box of the tile in row [r] and column [c] (lines 60-63). *)
Definition tile_box (tW tH r c : Z) : Z * Z * Z * Z :=
  (c * tW, r * tH, c * tW + tW, r * tH + tH).

(** The crop box of the tile with row-major index [i] in a grid of [C]
    columns. *)
Definition index_box (tW tH C i : Z) : Z * Z * Z * Z :=
  tile_box tW tH (i / C) (i mod C).

(** The ordering [0, 1, ..., n-1]. *)
Definition identity_ordering (n : Z) : list Z := range n.

(** Composition of two orderings read as maps from positions to indices:
    entry [i] of [a ∘ b] is [a[b[i]]]. *)
Definition compose_ordering (a b : list Z) : list Z :=
  (λ i, a !!! Z.to_nat i) <$> b.

(** [ordering] is a permutation of 0, 1, ..., n-1. *)
Definition permutation_of (n : Z) (ordering : list Z) : Prop :=
  ordering ≡ₚ range n.

Global Instance permutation_of_dec n ordering :
  Decision (permutation_of n ordering).
Proof. unfold permutation_of. apply _. Defined.

(** All values of an ordering are tile indices. *)
Definition in_range (n : Z) (ordering : list Z) : Prop :=
  ∀ v, v ∈ ordering → 0 ≤ v < n.

(** ** Sample data *)

(** Pixels as plain numbers, colour 0 being 0. *)
Global Instance Z_pixel : PIL.Pixel Z := λ _, 0.

(** A w x h RGB image whose pixel at (x, y) is 10*y + x + 1. *)
Definition sample (w h : nat) : PIL.Image Z :=
  {| PIL.mode := "RGB"; PIL.xsize := w; PIL.ysize := h;
     PIL.pix := λ x y, 10 * y + x + 1 |}.

Definition sample_files (w h : nat) : gmap string (PIL.Image Z) :=
  {[ "in.png" := sample w h ]}.

(** The pixels of an image, row by row. *)
Definition raster `{PIL.Pixel pixel} (im : PIL.Image pixel)
  : list (list (option pixel)) :=
  (λ y, (λ x, PIL.pixel_at im x y) <$> range (PIL.width im))
    <$> range (PIL.height im).

(** ** Properties *)

Example valid_input_scenario_1 :
  valid_input (256, 256) (128, 128) [0; 1; 2; 3] = Ok true.
Proof. reflexivity. Qed.

Example valid_input_scenario_3 :
  valid_input (256, 256) (128, 128) [0; 1; 2; 2] = Ok false.
Proof. vm_compute. reflexivity. Qed.

Example rearrange_scenario_4 :
  raster <$> rearrange (sample 2 2) (1, 1) [3; 2; 1; 0]
  = Ok [[Some 12; Some 11]; [Some 2; Some 1]].
Proof. vm_compute. reflexivity. Qed.

(** *** Python sequences *)

Lemma size_list_to_set_le (l : list Z) :
  (size (list_to_set l : gset Z) ≤ length l)%nat.
Proof.
  induction l as [|x l IH].
  - by rewrite list_to_set_nil, size_empty.
  - rewrite list_to_set_cons, size_union_alt, size_singleton, length_cons.
    assert (size (list_to_set l ∖ {[x]} : gset Z) ≤ size (list_to_set l : gset Z))%nat
      by (by apply subseteq_size, subseteq_difference_l).
    lia.
Qed.

(** [len(l) == len(set(l))] says that no value occurs twice in [l]. *)
Lemma len_set_NoDup (l : list Z) : len l = len_set l ↔ NoDup l.
Proof.
  unfold len, len_set. split.
  - induction l as [|x l IH]; intros Hlen; [constructor|].
    rewrite list_to_set_cons, size_union_alt, size_singleton, length_cons
      in Hlen.
    pose proof (size_list_to_set_le l) as Hle.
    assert (size (list_to_set l ∖ {[x]} : gset Z) ≤ size (list_to_set l : gset Z))%nat
      as Hsub by (by apply subseteq_size, subseteq_difference_l).
    assert (Hx : x ∉ l).
    { intros Hin.
      assert (list_to_set l ∖ {[x]} ⊂ (list_to_set l : gset Z)) as Hss
        by (by apply subset_difference_elem_of, elem_of_list_to_set).
      apply subset_size in Hss. lia. }
    constructor; [done|]. apply IH. lia.
  - intros Hnd. by rewrite size_list_to_set.
Qed.

Lemma getitem_nonneg {A} (l : list A) (i : Z) :
  0 ≤ i → getitem l i = from_option Ok (Raise IndexError) (l !! Z.to_nat i).
Proof.
  intros Hi. unfold getitem.
  rewrite (bool_decide_eq_false_2 (i < 0)) by lia.
  by rewrite (bool_decide_eq_false_2 (i < 0)) by lia.
Qed.

Lemma getitem_neg {A} (l : list A) (i : Z) :
  i < 0 → getitem l i = if bool_decide (i + len l < 0) then Raise IndexError
                        else getitem l (i + len l).
Proof.
  intros Hi. unfold getitem at 1.
  rewrite (bool_decide_eq_true_2 (i < 0)) by lia.
  case_bool_decide; [done|]. by rewrite getitem_nonneg by lia.
Qed.

(** [l[i]] raises exactly when [i] is outside [-len(l), len(l)). *)
Lemma getitem_raises {A} (l : list A) (i : Z) :
  getitem l i = Raise IndexError ↔ i < - len l ∨ len l ≤ i.
Proof.
  unfold len. destruct (decide (i < 0)) as [Hneg|Hpos].
  - rewrite getitem_neg by done. unfold len. case_bool_decide as Hk.
    + split; [lia|done].
    + rewrite getitem_nonneg by lia.
      destruct (lookup_lt_is_Some_2 l (Z.to_nat (i + Z.of_nat (length l)))
                  ltac:(lia))
        as [a ->]. simpl. split; [done|lia].
  - rewrite getitem_nonneg by lia.
    destruct (l !! Z.to_nat i) as [a|] eqn:Hl; simpl.
    + apply lookup_lt_Some in Hl. split; [done|lia].
    + apply lookup_ge_None in Hl. split; [lia|done].
Qed.

Lemma getitem_Ok {A} (l : list A) (i : Z) (a : A) :
  0 ≤ i → l !! Z.to_nat i = Some a → getitem l i = Ok a.
Proof. intros Hi Hl. by rewrite getitem_nonneg, Hl. Qed.

Lemma getitem_inv {A} (l : list A) (i : Z) :
  (∃ a, getitem l i = Ok a) ∨ getitem l i = Raise IndexError.
Proof.
  unfold getitem. case_bool_decide; [by right|].
  destruct (l !! _); simpl; eauto.
Qed.

(** *** The validator *)

Lemma floordiv_nonzero (a b : Z) : b ≠ 0 → floordiv a b = Ok (a / b).
Proof. intros Hb. unfold floordiv. by rewrite bool_decide_eq_false_2. Qed.

Lemma modulo_nonzero (a b : Z) : b ≠ 0 → modulo a b = Ok (a mod b).
Proof. intros Hb. unfold modulo. by rewrite bool_decide_eq_false_2. Qed.

(** With a tile size that has no zero component the validator returns, and
    its value is the conjunction of the four tests. *)
Lemma valid_input_nonzero (W H tw th : Z) (ordering : list Z) :
  tw ≠ 0 → th ≠ 0 →
  valid_input (W, H) (tw, th) ordering =
  Ok (bool_decide (W mod tw = 0) && bool_decide (H mod th = 0)
      && (bool_decide (len ordering = len_set ordering)
          && bool_decide (len ordering = (H / th) * (W / tw)))).
Proof.
  intros Htw Hth. unfold valid_input. simpl.
  rewrite !floordiv_nonzero, !modulo_nonzero by done. simpl.
  by destruct (bool_decide (W mod tw = 0)).
Qed.

(** C3: for a tile size with non-zero components, [valid_input] returns, and
    it returns true exactly when the tile width divides the image width, the
    tile height divides the image height, no value occurs twice in the
    ordering and the ordering has (H div th) * (W div tw) entries.  Whether
    the values lie in [0, tileCount) plays no part. *)
Theorem valid_input_true_iff (W H tw th : Z) (ordering : list Z) :
  tw ≠ 0 → th ≠ 0 →
  ∃ b, valid_input (W, H) (tw, th) ordering = Ok b ∧
       (b = true ↔
        W mod tw = 0 ∧ H mod th = 0 ∧ NoDup ordering ∧
        len ordering = (H / th) * (W / tw)).
Proof.
  intros Htw Hth. eexists. split; [by apply valid_input_nonzero|].
  rewrite !andb_true_iff, !bool_decide_eq_true, len_set_NoDup. tauto.
Qed.

Lemma valid_input_true_iff_witness :
  ∃ b, valid_input (256, 256) (128, 128) [3; 2; 1; 0] = Ok b ∧
       (b = true ↔
        256 mod 128 = 0 ∧ 256 mod 128 = 0 ∧ NoDup [3; 2; 1; 0] ∧
        len [3; 2; 1; 0] = (256 / 128) * (256 / 128)).
Proof. apply (valid_input_true_iff 256 256 128 128 [3; 2; 1; 0]); lia. Defined.

(** An ordering with a value that is no tile index passes the validator. *)
Example valid_input_range_unchecked :
  valid_input (256, 256) (128, 128) [0; 1; 2; 7] = Ok true.
Proof. vm_compute. reflexivity. Qed.

(** A zero tile width or height makes the validator raise at one of the two
    divisions that compute the row and column counts. *)
Lemma valid_input_zero_tile (W H tw th : Z) (ordering : list Z) :
  tw = 0 ∨ th = 0 →
  valid_input (W, H) (tw, th) ordering = Raise ZeroDivisionError.
Proof.
  intros Hz. unfold valid_input, floordiv. simpl.
  destruct (decide (th = 0)) as [->|Hth]; [done|].
  rewrite (bool_decide_eq_false_2 (th = 0)) by done. simpl.
  destruct Hz as [->|?]; done.
Qed.

(** C10: the validator accepts the tile size (-128, -128) for a 256 x 256
    image with the ordering [0, 1, 2, 3]: it asks nothing about the sign of
    the tile dimensions. *)
Theorem valid_input_negative_tile :
  valid_input (256, 256) (-128, -128) [0; 1; 2; 3] = Ok true.
Proof. vm_compute. reflexivity. Qed.

(** *** Loops *)

Lemma for_in_app {A S} (xs ys : list A) (body : A → S → result S) (s : S) :
  for_in (xs ++ ys) body s = for_in xs body s ≫= for_in ys body.
Proof.
  revert s. induction xs as [|x xs IH]; intros s; simpl; [done|].
  destruct (body x s); simpl; [apply IH|done].
Qed.

Lemma for_in_fmap {A B S} (f : A → B) (xs : list A)
    (body : B → S → result S) (s : S) :
  for_in (f <$> xs) body s = for_in xs (λ x, body (f x)) s.
Proof.
  revert s. induction xs as [|x xs IH]; intros s; simpl; [done|].
  destruct (body (f x) s); [apply IH|done].
Qed.

(** Two nested loops visit the pairs of [grid]. *)
Lemma for_in_nested {S} (rs cs : list Z) (body : Z → Z → S → result S) (s : S) :
  for_in rs (λ r s, for_in cs (λ c s, body r c s) s) s =
  for_in (mjoin ((λ r, pair r <$> cs) <$> rs)) (λ rc s, body rc.1 rc.2 s) s.
Proof.
  revert s. induction rs as [|r rs IH]; intros s; [done|].
  rewrite fmap_cons. csimpl. rewrite for_in_app, for_in_fmap. simpl.
  destruct (for_in cs _ s); simpl; [apply IH|done].
Qed.

(** A loop whose body cannot fail on the elements it visits returns. *)
Lemma for_in_total {A S} (xs : list A) (body : A → S → result S) (s : S) :
  (∀ x s, x ∈ xs → ∃ s', body x s = Ok s') →
  ∃ s', for_in xs body s = Ok s'.
Proof.
  revert s. induction xs as [|x xs IH]; intros s Hbody; simpl; [eauto|].
  destruct (Hbody x s) as [s' ->]; [left|].
  apply IH. intros y t Hy. apply Hbody. by right.
Qed.

(** A loop whose body can only fail with [e], and does fail with [e] on one
    of the elements whatever the state, fails with [e]. *)
Lemma for_in_raises {A S} (xs : list A) (body : A → S → result S) (s : S) e :
  (∀ x s, x ∈ xs → body x s = Raise e ∨ ∃ s', body x s = Ok s') →
  (∃ x, x ∈ xs ∧ ∀ s, body x s = Raise e) →
  for_in xs body s = Raise e.
Proof.
  revert s. induction xs as [|x xs IH]; intros s Hbody [x0 [Hx0 Hraise]].
  { by apply elem_of_nil in Hx0. }
  simpl. destruct (Hbody x s) as [->|[s' Hs']]; [left|done|].
  rewrite Hs'. apply elem_of_cons in Hx0 as [->|Hx0].
  - by rewrite Hraise in Hs'.
  - apply IH; [|eauto]. intros y t Hy. apply Hbody. by right.
Qed.

(** A loop whose body can only fail with [e] can only fail with [e]. *)
Lemma for_in_cases {A S} (xs : list A) (body : A → S → result S) (s : S) e :
  (∀ x s, body x s = Raise e ∨ ∃ s', body x s = Ok s') →
  for_in xs body s = Raise e ∨ ∃ s', for_in xs body s = Ok s'.
Proof.
  intros Hbody. revert s. induction xs as [|x xs IH]; intros s; simpl; [eauto|].
  destruct (Hbody x s) as [->|[s' ->]]; [by left|apply IH].
Qed.

(** Loop invariant over the part of the list already visited. *)
Lemma for_in_invariant {A S} (P : list A → S → Prop) (xs : list A)
    (body : A → S → result S) (s s' : S) :
  P [] s →
  (∀ l x t t', x ∈ xs → P l t → body x t = Ok t' → P (l ++ [x]) t') →
  for_in xs body s = Ok s' → P xs s'.
Proof.
  intros Hinit Hstep.
  assert (∀ ys l t, (∀ y, y ∈ ys → y ∈ xs) → P l t →
            for_in ys body t = Ok s' → P (l ++ ys) s') as Hgen.
  { induction ys as [|y ys IH]; intros l t Hsub Hl Hrun; simpl in Hrun.
    - injection Hrun as <-. by rewrite app_nil_r.
    - destruct (body y t) as [t'|] eqn:Hy; [|done].
      rewrite (cons_middle y l ys), app_assoc.
      apply (IH _ t'); [|eapply Hstep; eauto; apply Hsub; left|done].
      intros z Hz. apply Hsub. by right. }
  intros Hrun. by apply (Hgen xs [] s).
Qed.

(** *** The grid of tiles *)

Lemma elem_of_grid (R C r c : Z) :
  (r, c) ∈ grid R C ↔ 0 ≤ r < R ∧ 0 ≤ c < C.
Proof.
  unfold grid, range. rewrite list_elem_of_join. split.
  - intros (row & Hrc & Hrow).
    apply list_elem_of_fmap in Hrow as (r' & -> & Hr').
    apply list_elem_of_fmap in Hrc as (c' & [= -> ->] & Hc').
    apply elem_of_seqZ in Hr', Hc'. lia.
  - intros [Hr Hc]. exists (pair r <$> seqZ 0 C). split.
    + apply list_elem_of_fmap. exists c. split; [done|].
      apply elem_of_seqZ. lia.
    + apply list_elem_of_fmap. exists r. split; [done|].
      apply elem_of_seqZ. lia.
Qed.

Lemma grid_rows_length (R C : Z) :
  Forall (λ row : list (Z * Z), length row = Z.to_nat C)
         ((λ r, pair r <$> range C) <$> range R).
Proof.
  apply Forall_fmap, Forall_forall. intros r _. simpl.
  unfold range. by rewrite length_fmap, length_seqZ.
Qed.

Lemma length_grid (R C : Z) :
  length (grid R C) = (Z.to_nat R * Z.to_nat C)%nat.
Proof.
  unfold grid. rewrite length_join.
  rewrite (sum_list_fmap_same (Z.to_nat C)) by apply grid_rows_length.
  unfold range. by rewrite length_fmap, length_seqZ.
Qed.

Lemma len_grid (R C : Z) : 0 ≤ R → 0 ≤ C → len (grid R C) = R * C.
Proof. intros HR HC. unfold len. rewrite length_grid. lia. Qed.

(** Position [r * C + c] of the grid holds the pair (r, c). *)
Lemma lookup_grid (R C r c : Z) :
  0 ≤ r < R → 0 ≤ c < C →
  grid R C !! Z.to_nat (r * C + c) = Some (r, c).
Proof.
  intros Hr Hc. unfold grid.
  replace (Z.to_nat (r * C + c))
    with (Z.to_nat r * Z.to_nat C + Z.to_nat c)%nat by lia.
  apply (join_lookup_Some_same_length' (Z.to_nat C));
    [apply grid_rows_length|lia|].
  exists (pair r <$> range C). unfold range. split.
  - rewrite list_lookup_fmap, lookup_seqZ_lt by lia. simpl.
    do 3 f_equal. lia.
  - rewrite list_lookup_fmap, lookup_seqZ_lt by lia. simpl.
    do 2 f_equal. lia.
Qed.

(** The entry with row-major index [i] is the pair (i div C, i mod C). *)
Lemma lookup_grid_index (R C i : Z) :
  0 < C → 0 ≤ i < R * C →
  grid R C !! Z.to_nat i = Some (i / C, i mod C).
Proof.
  intros HC Hi.
  rewrite (Z.div_mod i C) at 1 by lia.
  rewrite (Z.mul_comm C). apply lookup_grid.
  - split; [apply Z.div_pos; lia|]. apply Z.div_lt_upper_bound; lia.
  - apply Z.mod_pos_bound. lia.
Qed.

Section tiles.
Context `{PIL.Pixel pixel}.
Implicit Types img out tile : PIL.Image pixel.

Lemma foldl_append_tiles {A} (g : A → PIL.Image pixel) (xs : list A)
    (tiles : list (PIL.Image pixel)) :
  foldl (λ tiles x, tiles ++ [g x]) tiles xs = tiles ++ (g <$> xs).
Proof.
  revert tiles. induction xs as [|x xs IH]; intros tiles; simpl.
  - by rewrite app_nil_r.
  - by rewrite IH, <- app_assoc.
Qed.

(** The first pair of loops collects the crops of the grid in order. *)
Lemma extract_tiles_grid img (tW tH R C : Z) :
  extract_tiles img tW tH R C =
  (λ rc, PIL.crop img (tile_box tW tH rc.1 rc.2)) <$> grid R C.
Proof.
  unfold extract_tiles, grid, tile_box.
  assert (∀ rs tiles,
    foldl (λ tiles r, foldl (λ tiles c,
        let left := c * tW in
        let top := r * tH in
        let right := left + tW in
        let bottom := top + tH in
        let tile := PIL.crop img (left, top, right, bottom) in
        tiles ++ [tile]) tiles (range C)) tiles rs =
    tiles ++ ((λ rc : Z * Z, PIL.crop img
                 (rc.2 * tW, rc.1 * tH, rc.2 * tW + tW, rc.1 * tH + tH))
              <$> mjoin ((λ r, pair r <$> range C) <$> rs))) as Hgen.
  { induction rs as [|r rs IH]; intros tiles.
    - simpl. by rewrite app_nil_r.
    - rewrite fmap_cons. csimpl. rewrite IH. cbv zeta.
      rewrite (foldl_append_tiles
                 (λ c, PIL.crop img (c * tW, r * tH, c * tW + tW, r * tH + tH))).
      rewrite fmap_app, <- list_fmap_compose, app_assoc. done. }
  apply (Hgen (range R) []).
Qed.

Lemma len_extract_tiles img (tW tH R C : Z) :
  0 ≤ R → 0 ≤ C → len (extract_tiles img tW tH R C) = R * C.
Proof.
  intros HR HC. rewrite extract_tiles_grid. unfold len.
  rewrite length_fmap, length_grid. lia.
Qed.

(** Tile [j] is the crop at row [j div C], column [j mod C]. *)
Lemma getitem_extract_tiles img (tW tH R C j : Z) :
  0 < C → 0 ≤ j < R * C →
  getitem (extract_tiles img tW tH R C) j =
  Ok (PIL.crop img (index_box tW tH C j)).
Proof.
  intros HC Hj. apply getitem_Ok; [lia|].
  rewrite extract_tiles_grid, list_lookup_fmap, lookup_grid_index by done.
  done.
Qed.

(** Every tile is the crop of a box of the grid. *)
Lemma elem_of_extract_tiles img (tW tH R C : Z) tile :
  tile ∈ extract_tiles img tW tH R C →
  ∃ r c, 0 ≤ r < R ∧ 0 ≤ c < C ∧
         tile = PIL.crop img (tile_box tW tH r c).
Proof.
  rewrite extract_tiles_grid. intros Hin.
  apply list_elem_of_fmap in Hin as ([r c] & -> & Hrc).
  apply elem_of_grid in Hrc. exists r, c. tauto.
Qed.

End tiles.

(** *** Tile coordinates *)

(** Column [c] is the one that holds [x] exactly when [c = x div t]. *)
Lemma tile_coord (t x c : Z) : 0 < t → 0 ≤ x - c * t < t ↔ c = x / t.
Proof.
  intros Ht. split.
  - intros Hx. apply (Z.div_unique x t c (x - c * t)); lia.
  - intros ->. pose proof (Z.div_mod x t). pose proof (Z.mod_pos_bound x t). lia.
Qed.

Lemma tile_offset (t x : Z) : 0 < t → x - x / t * t = x mod t.
Proof. intros Ht. pose proof (Z.div_mod x t). lia. Qed.

Lemma tile_coord_bound (t n x : Z) : 0 < t → 0 ≤ x < n * t → 0 ≤ x / t < n.
Proof.
  intros Ht Hx. split; [apply Z.div_pos; lia|].
  apply Z.div_lt_upper_bound; lia.
Qed.

(** The row-major index of a grid position determines the position. *)
Lemma index_div (C r c : Z) : 0 ≤ c < C → (r * C + c) / C = r.
Proof. intros Hc. symmetry. apply (Z.div_unique _ C r c); lia. Qed.

Lemma index_mod (C r c : Z) : 0 ≤ c < C → (r * C + c) mod C = c.
Proof. intros Hc. symmetry. apply (Z.mod_unique _ C r c); lia. Qed.

Lemma index_bound (R C r c : Z) :
  0 ≤ r < R → 0 ≤ c < C → 0 ≤ r * C + c < R * C.
Proof. intros Hr Hc. nia. Qed.

Lemma index_split_bound (R C j : Z) :
  0 < C → 0 ≤ j < R * C → 0 ≤ j / C < R ∧ 0 ≤ j mod C < C.
Proof.
  intros HC Hj. split; [|by apply Z.mod_pos_bound].
  split; [apply Z.div_pos; lia|]. apply Z.div_lt_upper_bound; lia.
Qed.

Lemma getitem_elem_of {A} (l : list A) (i : Z) (a : A) :
  getitem l i = Ok a → a ∈ l.
Proof.
  unfold getitem. case_bool_decide; [done|].
  destruct (l !! _) as [b|] eqn:Hl; simpl; [|done].
  intros [= <-]. by eapply list_elem_of_lookup_2.
Qed.

(** [l[i]] returns for every [i] in [-len(l), len(l)). *)
Lemma getitem_returns {A} (l : list A) (i : Z) :
  - len l ≤ i < len l → ∃ a, getitem l i = Ok a.
Proof.
  intros Hi. destruct (getitem_inv l i) as [?|Hraise]; [done|].
  apply getitem_raises in Hraise. lia.
Qed.

(** *** Stitching *)

Section stitching.
Context `{PIL.Pixel pixel}.
Implicit Types img out tile : PIL.Image pixel.
Implicit Types tiles : list (PIL.Image pixel).

Lemma stitch_grid tiles ordering tW tH R C out :
  stitch tiles ordering tW tH R C out =
  for_in (grid R C)
    (λ rc out, paste_tile tiles ordering tW tH C rc.1 rc.2 out) out.
Proof.
  unfold stitch, grid.
  apply (for_in_nested _ _ (λ r c out, paste_tile tiles ordering tW tH C r c out)).
Qed.

Lemma paste_tile_inv tiles ordering tW tH C r c out out' :
  paste_tile tiles ordering tW tH C r c out = Ok out' →
  (r * C + c < len tiles ∧
   ∃ j tile, getitem ordering (r * C + c) = Ok j ∧
             getitem tiles j = Ok tile ∧
             out' = PIL.paste out tile (c * tW, r * tH))
  ∨ (len tiles ≤ r * C + c ∧ out' = out).
Proof.
  unfold paste_tile. cbv zeta. case_bool_decide.
  - destruct (getitem ordering _) as [j|] eqn:Hj; simpl; [|done].
    destruct (getitem tiles j) as [tile|] eqn:Ht; simpl; [|done].
    intros [= <-]. left. eauto 10.
  - intros [= <-]. right. split; [lia|done].
Qed.

(** The only exception that a paste step can raise is [IndexError]. *)
Lemma paste_tile_cases tiles ordering tW tH C r c out :
  paste_tile tiles ordering tW tH C r c out = Raise IndexError ∨
  ∃ out', paste_tile tiles ordering tW tH C r c out = Ok out'.
Proof.
  unfold paste_tile. cbv zeta. case_bool_decide; [|eauto].
  destruct (getitem_inv ordering (r * C + c)) as [[j ->]| ->]; simpl; [|eauto].
  destruct (getitem_inv tiles j) as [[tile ->]| ->]; simpl; eauto.
Qed.

Lemma paste_tile_returns tiles ordering tW tH C r c out :
  (r * C + c < len tiles →
   ∃ j tile, getitem ordering (r * C + c) = Ok j ∧ getitem tiles j = Ok tile) →
  ∃ out', paste_tile tiles ordering tW tH C r c out = Ok out'.
Proof.
  intros Hget. unfold paste_tile. cbv zeta. case_bool_decide; [|eauto].
  destruct Hget as (j & tile & -> & Htile); [done|]. simpl.
  rewrite Htile. simpl. eauto.
Qed.

Lemma paste_tile_raises tiles ordering tW tH C r c j out :
  r * C + c < len tiles →
  getitem ordering (r * C + c) = Ok j →
  getitem tiles j = Raise IndexError →
  paste_tile tiles ordering tW tH C r c out = Raise IndexError.
Proof.
  intros Hlt Hj Htile. unfold paste_tile. cbv zeta.
  rewrite bool_decide_eq_true_2 by done. rewrite Hj. simpl. by rewrite Htile.
Qed.

(** The stitching loops return when every lookup they make is in range. *)
Lemma stitch_returns tiles ordering tW tH R C out0 :
  (∀ r c, 0 ≤ r < R → 0 ≤ c < C → r * C + c < len tiles →
     ∃ j tile, getitem ordering (r * C + c) = Ok j ∧ getitem tiles j = Ok tile) →
  ∃ out, stitch tiles ordering tW tH R C out0 = Ok out.
Proof.
  intros Hget. rewrite stitch_grid. apply for_in_total.
  intros [r c] out Hrc. apply elem_of_grid in Hrc as [Hr Hc]. simpl.
  apply paste_tile_returns. by apply Hget.
Qed.

(** They raise [IndexError] when one of the destination positions names a
    tile that the tile list cannot give. *)
Lemma stitch_raises tiles ordering tW tH R C out0 r c j :
  0 ≤ r < R → 0 ≤ c < C → r * C + c < len tiles →
  getitem ordering (r * C + c) = Ok j →
  getitem tiles j = Raise IndexError →
  stitch tiles ordering tW tH R C out0 = Raise IndexError.
Proof.
  intros Hr Hc Hlt Hj Htile. rewrite stitch_grid. apply for_in_raises.
  - intros [r' c'] out _. apply paste_tile_cases.
  - exists (r, c). split; [by apply elem_of_grid|].
    intros out. simpl. by eapply paste_tile_raises.
Qed.

(** [IndexError] is the only exception of the stitching loops. *)
Lemma stitch_cases tiles ordering tW tH R C out0 :
  stitch tiles ordering tW tH R C out0 = Raise IndexError ∨
  ∃ out, stitch tiles ordering tW tH R C out0 = Ok out.
Proof.
  rewrite stitch_grid. apply for_in_cases.
  intros [r c] out. apply paste_tile_cases.
Qed.

(** The canvas keeps its mode and its size. *)
Lemma stitch_frame tiles ordering tW tH R C out0 out :
  stitch tiles ordering tW tH R C out0 = Ok out →
  PIL.mode out = PIL.mode out0 ∧ PIL.size out = PIL.size out0.
Proof.
  rewrite stitch_grid.
  apply (for_in_invariant
           (λ _ o, PIL.mode o = PIL.mode out0 ∧ PIL.size o = PIL.size out0));
    [done|].
  intros _ [r c] t t' _ Ht Hstep. simpl in Hstep.
  apply paste_tile_inv in Hstep as [(_ & j & tile & _ & _ & ->)|[_ ->]]; done.
Qed.

(** The pixel of the stitched canvas at (x, y), for an ordering entry [j]
    that is a tile index: it is the pixel of tile [j] at the offset that
    (x, y) has in its own tile. *)
Lemma stitch_pixel img tW tH R C ordering out0 out x y j :
  0 < tW → 0 < tH →
  PIL.width img = C * tW → PIL.height img = R * tH →
  stitch (extract_tiles img tW tH R C) ordering tW tH R C out0 = Ok out →
  0 ≤ x < C * tW → 0 ≤ y < R * tH →
  getitem ordering (y / tH * C + x / tW) = Ok j →
  0 ≤ j < R * C →
  PIL.pix out x y =
  PIL.pix img (j mod C * tW + x mod tW) (j / C * tH + y mod tH).
Proof.
  intros HtW HtH Hwidth Hheight Hrun Hx Hy Hj Hjr.
  assert (0 < C) as HC by nia. assert (0 < R) as HR by nia.
  pose proof (tile_coord_bound tW C x HtW Hx) as Hcx.
  pose proof (tile_coord_bound tH R y HtH Hy) as Hry.
  rewrite stitch_grid in Hrun.
  refine (for_in_invariant (λ l o, (y / tH, x / tW) ∈ l →
            PIL.pix o x y =
            PIL.pix img (j mod C * tW + x mod tW) (j / C * tH + y mod tH))
            _ _ _ _ _ _ Hrun _).
  - intros Hin. by apply elem_of_nil in Hin.
  - intros l [r c] t t' Hrc Hl Hstep Hin. simpl in Hstep.
    apply elem_of_grid in Hrc as [Hr Hc].
    apply paste_tile_inv in Hstep as [(_ & j' & tile & Hj' & Htile & ->)|[Hge _]].
    2:{ rewrite len_extract_tiles in Hge by lia.
        pose proof (index_bound R C r c Hr Hc). lia. }
    destruct (decide ((r, c) = (y / tH, x / tW))) as [[= -> ->]|Hne].
    + rewrite Hj in Hj'. injection Hj' as <-.
      rewrite getitem_extract_tiles in Htile by done. injection Htile as <-.
      pose proof (index_split_bound R C j HC Hjr) as [Hjd Hjm].
      pose proof (Z.mod_pos_bound x tW HtW). pose proof (Z.mod_pos_bound y tH HtH).
      unfold PIL.paste, PIL.crop, index_box, tile_box, PIL.inside,
        PIL.width, PIL.height in *. simpl.
      rewrite !tile_offset by done.
      rewrite bool_decide_eq_true_2 by lia.
      rewrite bool_decide_eq_true_2 by nia. done.
    + apply getitem_elem_of, elem_of_extract_tiles in Htile
        as (r' & c' & _ & _ & ->).
      unfold PIL.paste, PIL.crop, tile_box, PIL.inside,
        PIL.width, PIL.height. simpl.
      rewrite bool_decide_eq_false_2.
      * apply Hl. apply elem_of_app in Hin as [Hin|Hin]; [done|].
        apply list_elem_of_singleton in Hin. congruence.
      * intros [Hx' Hy']. apply Hne. f_equal; apply tile_coord; lia.
  - by apply elem_of_grid.
Qed.

End stitching.

(** *** The rearranger on an opened image *)

Lemma valid_input_returns_nonzero (size : Z * Z) (tW tH : Z) ordering b :
  valid_input size (tW, tH) ordering = Ok b → tW ≠ 0 ∧ tH ≠ 0.
Proof.
  destruct size as [W Hh]. intros Hv.
  split; intros ->; rewrite valid_input_zero_tile in Hv; auto; done.
Qed.

Lemma valid_input_accepts (W Hh tW tH : Z) ordering :
  tW ≠ 0 → tH ≠ 0 →
  W mod tW = 0 → Hh mod tH = 0 →
  NoDup ordering → len ordering = Hh / tH * (W / tW) →
  valid_input (W, Hh) (tW, tH) ordering = Ok true.
Proof.
  intros HtW HtH HW HH Hnd Hlen.
  destruct (valid_input_true_iff W Hh tW tH ordering HtW HtH) as (b & -> & Hb).
  f_equal. by apply Hb.
Qed.

Lemma valid_input_accepted (W Hh tW tH : Z) ordering :
  valid_input (W, Hh) (tW, tH) ordering = Ok true →
  W mod tW = 0 ∧ Hh mod tH = 0 ∧
  NoDup ordering ∧ len ordering = Hh / tH * (W / tW).
Proof.
  intros Hv. destruct (valid_input_returns_nonzero _ _ _ _ _ Hv) as [HtW HtH].
  destruct (valid_input_true_iff W Hh tW tH ordering HtW HtH) as (b & Hb & Hiff).
  rewrite Hv in Hb. injection Hb as <-. by apply Hiff.
Qed.

Lemma exact_division (a b : Z) : b ≠ 0 → a mod b = 0 → a = a / b * b.
Proof. intros Hb Hmod. pose proof (Z.div_mod a b Hb). lia. Qed.

Section rearranging.
Context `{PIL.Pixel pixel}.
Implicit Types img out : PIL.Image pixel.
Implicit Types fs : gmap string (PIL.Image pixel).

Lemma rearrange_accepted img tW tH ordering :
  valid_input (PIL.size img) (tW, tH) ordering = Ok true →
  rearrange img (tW, tH) ordering =
  stitch (extract_tiles img tW tH (PIL.height img / tH) (PIL.width img / tW))
    ordering tW tH (PIL.height img / tH) (PIL.width img / tW)
    (PIL.new (PIL.mode img) (PIL.size img)).
Proof.
  intros Hv. destruct (valid_input_returns_nonzero _ _ _ _ _ Hv) as [HtW HtH].
  unfold rearrange. rewrite Hv. simpl.
  by rewrite !floordiv_nonzero by done.
Qed.

Lemma rearrange_rejected img tile_size ordering :
  valid_input (PIL.size img) tile_size ordering = Ok false →
  rearrange img tile_size ordering = Raise (ValueError invalid_message).
Proof. intros Hv. unfold rearrange. by rewrite Hv. Qed.

Lemma rearrange_faulted img tile_size ordering e :
  valid_input (PIL.size img) tile_size ordering = Raise e →
  rearrange img tile_size ordering = Raise e.
Proof. intros Hv. unfold rearrange. by rewrite Hv. Qed.

(** A call that returns was accepted by the validator. *)
Lemma rearrange_Ok_accepted img tile_size ordering out :
  rearrange img tile_size ordering = Ok out →
  valid_input (PIL.size img) tile_size ordering = Ok true.
Proof.
  intros Hrun. destruct (valid_input _ _ _) as [[]|e] eqn:Hv; [done| |].
  - by rewrite rearrange_rejected in Hrun.
  - by rewrite (rearrange_faulted _ _ _ e) in Hrun.
Qed.

Lemma size_new_size img :
  PIL.size (PIL.new (PIL.mode img) (PIL.size img) : PIL.Image pixel)
  = PIL.size img.
Proof.
  unfold PIL.new, PIL.size, PIL.width, PIL.height. simpl.
  by rewrite !Nat2Z.id.
Qed.

(** The canvas that a call returns has the mode and the size of the
    source. *)
Lemma rearrange_frame img tile_size ordering out :
  rearrange img tile_size ordering = Ok out →
  PIL.mode out = PIL.mode img ∧ PIL.size out = PIL.size img.
Proof.
  intros Hrun. pose proof (rearrange_Ok_accepted _ _ _ _ Hrun) as Hv.
  destruct tile_size as [tW tH]. rewrite rearrange_accepted in Hrun by done.
  apply stitch_frame in Hrun as [-> ->]. by rewrite size_new_size.
Qed.

(** An accepted call returns when every value of the ordering is a valid
    Python index into the tile list. *)
Lemma rearrange_returns img tW tH ordering :
  valid_input (PIL.size img) (tW, tH) ordering = Ok true →
  (∀ v, v ∈ ordering →
     let n := PIL.height img / tH * (PIL.width img / tW) in - n ≤ v < n) →
  ∃ out, rearrange img (tW, tH) ordering = Ok out.
Proof.
  intros Hv Hrange. rewrite rearrange_accepted by done.
  apply valid_input_accepted in Hv as (_ & _ & _ & Hlen).
  apply stitch_returns. intros r c Hr Hc _.
  pose proof (index_bound _ _ r c Hr Hc) as Hi.
  destruct (getitem_returns ordering (r * (PIL.width img / tW) + c))
    as [j Hj]; [lia|].
  exists j. destruct (getitem_returns
    (extract_tiles img tW tH (PIL.height img / tH) (PIL.width img / tW)) j)
    as [tile Htile]; [|eauto].
  rewrite len_extract_tiles by lia.
  apply Hrange. by eapply getitem_elem_of.
Qed.

(** The pixels of the canvas, for an ordering entry that is a tile
    index. *)
Lemma rearrange_pixel img tW tH ordering out x y j :
  0 < tW → 0 < tH →
  rearrange img (tW, tH) ordering = Ok out →
  0 ≤ x < PIL.width img → 0 ≤ y < PIL.height img →
  ordering !! Z.to_nat (y / tH * (PIL.width img / tW) + x / tW) = Some j →
  0 ≤ j < PIL.height img / tH * (PIL.width img / tW) →
  PIL.pix out x y =
  PIL.pix img (j mod (PIL.width img / tW) * tW + x mod tW)
              (j / (PIL.width img / tW) * tH + y mod tH).
Proof.
  intros HtW HtH Hrun Hx Hy Hj Hjr.
  pose proof (rearrange_Ok_accepted _ _ _ _ Hrun) as Hv.
  rewrite rearrange_accepted in Hrun by done.
  apply valid_input_accepted in Hv as (HW & HH & _ & _).
  apply exact_division in HW; [|lia]. apply exact_division in HH; [|lia].
  eapply stitch_pixel; eauto; try lia.
  apply getitem_Ok; [|done].
  pose proof (tile_coord_bound tW (PIL.width img / tW) x HtW ltac:(lia)).
  pose proof (tile_coord_bound tH (PIL.height img / tH) y HtH ltac:(lia)).
  nia.
Qed.

(** An accepted call on an image with at least one tile raises
    [IndexError] when the ordering holds a value that is no valid Python
    index into the tile list. *)
Lemma rearrange_index_error img tW tH ordering v :
  0 < tW → 0 < tH →
  valid_input (PIL.size img) (tW, tH) ordering = Ok true →
  v ∈ ordering →
  (let n := PIL.height img / tH * (PIL.width img / tW) in v < - n ∨ n ≤ v) →
  rearrange img (tW, tH) ordering = Raise IndexError.
Proof.
  intros HtW HtH Hv Hin Hout. rewrite rearrange_accepted by done.
  apply valid_input_accepted in Hv as (_ & _ & _ & Hlen).
  apply list_elem_of_lookup in Hin as [k Hk].
  pose proof (lookup_lt_Some _ _ _ Hk) as Hklt.
  assert (0 ≤ PIL.width img / tW) as HC0
    by (apply Z.div_pos; unfold PIL.width; lia).
  assert (0 ≤ PIL.height img / tH) as HR0
    by (apply Z.div_pos; unfold PIL.height; lia).
  unfold len in Hlen.
  assert (0 < PIL.width img / tW) as HC by nia.
  pose proof (index_split_bound (PIL.height img / tH) (PIL.width img / tW)
                (Z.of_nat k) HC ltac:(lia)) as [Hr Hc].
  assert (Z.of_nat k / (PIL.width img / tW) * (PIL.width img / tW)
          + Z.of_nat k mod (PIL.width img / tW) = Z.of_nat k) as Hsplit
    by (pose proof (Z.div_mod (Z.of_nat k) (PIL.width img / tW)); lia).
  eapply (stitch_raises _ _ _ _ _ _ _ _ _ v); [exact Hr|exact Hc| | |].
  - rewrite len_extract_tiles by lia. lia.
  - rewrite Hsplit. apply getitem_Ok; [lia|]. by rewrite Nat2Z.id.
  - apply getitem_raises. rewrite len_extract_tiles by lia. exact Hout.
Qed.

(** *** The rearranger on the image files *)

Lemma rearrange_tiles_opened fs image_path tile_size ordering out_path img :
  fs !! image_path = Some img →
  rearrange_tiles image_path tile_size ordering out_path fs =
  match rearrange img tile_size ordering with
  | Ok output => (Ok (), <[out_path := output]> fs)
  | Raise e => (Raise e, fs)
  end.
Proof.
  intros Himg. unfold rearrange_tiles, PIL.open, PIL.save. rewrite Himg. simpl.
  by destruct (rearrange _ _ _).
Qed.

End rearranging.

(** *** Orderings *)

Lemma permutation_of_NoDup (n : Z) ordering :
  permutation_of n ordering → NoDup ordering.
Proof. intros Hp. unfold permutation_of in Hp. rewrite Hp. apply NoDup_seqZ. Qed.

Lemma permutation_of_len (n : Z) ordering :
  0 ≤ n → permutation_of n ordering → len ordering = n.
Proof.
  intros Hn Hp. unfold len. rewrite (Permutation_length Hp).
  unfold range. rewrite length_seqZ. lia.
Qed.

Lemma permutation_of_in_range (n : Z) ordering :
  permutation_of n ordering → in_range n ordering.
Proof.
  intros Hp v Hv. unfold permutation_of in Hp. rewrite Hp in Hv.
  apply elem_of_seqZ in Hv. lia.
Qed.

Lemma permutation_of_identity (n : Z) : permutation_of n (identity_ordering n).
Proof. unfold permutation_of, identity_ordering. reflexivity. Qed.

(** The composition of two orderings without repetition whose values are
    indices is again one. *)
Lemma compose_ordering_NoDup (n : Z) a b :
  NoDup a → len a = n → NoDup b → in_range n b →
  NoDup (compose_ordering a b).
Proof.
  intros Ha Hlen Hb Hrange. unfold compose_ordering.
  apply NoDup_fmap_2_strong; [|done].
  intros x y Hx Hy Heq. apply Hrange in Hx, Hy. unfold len in Hlen.
  assert (Z.to_nat x = Z.to_nat y); [|lia].
  apply (NoDup_lookup a _ _ (a !!! Z.to_nat x) Ha).
  - apply list_lookup_lookup_total_lt. lia.
  - rewrite Heq. apply list_lookup_lookup_total_lt. lia.
Qed.

Lemma compose_ordering_len a b : len (compose_ordering a b) = len b.
Proof. unfold len, compose_ordering. by rewrite length_fmap. Qed.

Lemma compose_ordering_in_range (n : Z) a b :
  len a = n → in_range n a → in_range n b → in_range n (compose_ordering a b).
Proof.
  intros Hlen Ha Hb v Hv. unfold compose_ordering in Hv.
  apply list_elem_of_fmap in Hv as (i & -> & Hi). apply Hb in Hi.
  apply Ha. apply list_elem_of_lookup_total_2. unfold len in Hlen. lia.
Qed.

Lemma compose_ordering_lookup (n : Z) a b i j :
  len a = n → in_range n b →
  b !! i = Some j →
  compose_ordering a b !! i = Some (a !!! Z.to_nat j) ∧
  a !! Z.to_nat j = Some (a !!! Z.to_nat j).
Proof.
  intros Hlen Hb Hj. unfold compose_ordering.
  rewrite list_lookup_fmap, Hj. split; [done|].
  apply list_lookup_lookup_total_lt.
  apply list_elem_of_lookup_2, Hb in Hj. unfold len in Hlen. lia.
Qed.

(** ** Properties of the two functions *)

Section claims.
Context `{PIL.Pixel pixel}.
Implicit Types img out : PIL.Image pixel.
Implicit Types fs : gmap string (PIL.Image pixel).

Lemma same_pixels_intro (a b : PIL.Image pixel) :
  PIL.mode a = PIL.mode b → PIL.size a = PIL.size b →
  (∀ x y, 0 ≤ x < PIL.width a → 0 ≤ y < PIL.height a →
          PIL.pix a x y = PIL.pix b x y) →
  PIL.same_pixels a b.
Proof.
  intros Hm Hs Hp. split; [done|]. split; [done|]. intros x y.
  unfold PIL.pixel_at, PIL.inside. unfold PIL.size in Hs.
  injection Hs as Hw Hh. rewrite <- Hw, <- Hh.
  case_bool_decide as Hin; [|done]. f_equal. apply Hp; lia.
Qed.

Lemma tile_count_nonneg img tW tH :
  0 < tW → 0 < tH →
  0 ≤ PIL.width img / tW ∧ 0 ≤ PIL.height img / tH.
Proof.
  intros HtW HtH. unfold PIL.width, PIL.height.
  split; apply Z.div_pos; lia.
Qed.

(** The validator accepts the permutations of the tile indices. *)
Lemma valid_input_permutation img tW tH ordering :
  0 < tW → 0 < tH →
  PIL.width img mod tW = 0 → PIL.height img mod tH = 0 →
  permutation_of (PIL.height img / tH * (PIL.width img / tW)) ordering →
  valid_input (PIL.size img) (tW, tH) ordering = Ok true.
Proof.
  intros HtW HtH HW HH Hp.
  destruct (tile_count_nonneg img tW tH HtW HtH) as [HC HR].
  apply valid_input_accepts; [lia|lia|done|done| |].
  - by eapply permutation_of_NoDup.
  - apply permutation_of_len; [nia|done].
Qed.

(** C2: for a tile size that divides the image exactly, the identity
    ordering [0, 1, ..., tileCount-1] makes [rearrange_tiles] return and
    write an image that equals the source image pixel for pixel. *)
Theorem identity_ordering_round_trip fs image_path out_path img tW tH :
  fs !! image_path = Some img →
  0 < tW → 0 < tH →
  PIL.width img mod tW = 0 → PIL.height img mod tH = 0 →
  ∃ out,
    rearrange_tiles image_path (tW, tH)
      (identity_ordering (PIL.height img / tH * (PIL.width img / tW)))
      out_path fs
    = (Ok (), <[out_path := out]> fs) ∧
    PIL.same_pixels out img.
Proof.
  intros Himg HtW HtH HW HH.
  set (C := PIL.width img / tW). set (R := PIL.height img / tH).
  pose proof (permutation_of_identity (R * C)) as Hp.
  pose proof (valid_input_permutation img tW tH _ HtW HtH HW HH Hp) as Hv.
  destruct (rearrange_returns img tW tH _ Hv) as [out Hrun].
  { intros v Hin. apply (permutation_of_in_range _ _ Hp) in Hin.
    fold R C. simpl. lia. }
  exists out. split.
  { by rewrite (rearrange_tiles_opened _ _ _ _ _ img), Hrun. }
  destruct (rearrange_frame _ _ _ _ Hrun) as [Hm Hs].
  apply same_pixels_intro; [done..|]. intros x y Hx Hy.
  unfold PIL.size in Hs. injection Hs as Hw Hh. rewrite Hw in Hx. rewrite Hh in Hy.
  apply exact_division in HW as HWeq; [|lia].
  apply exact_division in HH as HHeq; [|lia]. fold C in HWeq. fold R in HHeq.
  pose proof (tile_coord_bound tW C x HtW ltac:(lia)) as Hc.
  pose proof (tile_coord_bound tH R y HtH ltac:(lia)) as Hr.
  pose proof (index_bound R C _ _ Hr Hc) as Hi.
  rewrite (rearrange_pixel img tW tH _ out x y (y / tH * C + x / tW))
    by (try done; unfold identity_ordering, range;
        rewrite lookup_seqZ_lt by lia; f_equal; lia).
  fold C. rewrite index_div, index_mod by done.
  f_equal; [pose proof (tile_offset tW x HtW)|pose proof (tile_offset tH y HtH)];
    lia.
Qed.

(** C6 (amended): for a tile size that divides the image exactly and two
    permutations A and B of the tile indices, rearranging the image with A
    and then the result with B writes the same image, pixel for pixel, as
    one rearrangement of the original image with the ordering whose entry
    [i] is [A[B[i]]]. *)
Theorem rearrange_twice_is_composition
    fs image_path path_a path_ab path_c img tW tH A B :
  fs !! image_path = Some img →
  0 < tW → 0 < tH →
  PIL.width img mod tW = 0 → PIL.height img mod tH = 0 →
  permutation_of (PIL.height img / tH * (PIL.width img / tW)) A →
  permutation_of (PIL.height img / tH * (PIL.width img / tW)) B →
  ∃ out_a out_ab out_c,
    rearrange_tiles image_path (tW, tH) A path_a fs
    = (Ok (), <[path_a := out_a]> fs) ∧
    rearrange_tiles path_a (tW, tH) B path_ab (<[path_a := out_a]> fs)
    = (Ok (), <[path_ab := out_ab]> (<[path_a := out_a]> fs)) ∧
    rearrange_tiles image_path (tW, tH) (compose_ordering A B) path_c fs
    = (Ok (), <[path_c := out_c]> fs) ∧
    PIL.same_pixels out_ab out_c.
Proof.
  intros Himg HtW HtH HW HH HpA HpB.
  destruct (tile_count_nonneg img tW tH HtW HtH) as [HC0 HR0].
  set (C := PIL.width img / tW) in *. set (R := PIL.height img / tH) in *.
  assert (0 ≤ R * C) as Hn by nia.
  pose proof (permutation_of_in_range _ _ HpA) as HrA.
  pose proof (permutation_of_in_range _ _ HpB) as HrB.
  pose proof (permutation_of_len _ _ Hn HpA) as HlA.
  pose proof (permutation_of_len _ _ Hn HpB) as HlB.
  pose proof (valid_input_permutation img tW tH _ HtW HtH HW HH HpA) as HvA.
  pose proof (valid_input_permutation img tW tH _ HtW HtH HW HH HpB) as HvB.
  assert (valid_input (PIL.size img) (tW, tH) (compose_ordering A B) = Ok true)
    as HvC.
  { apply valid_input_accepts; [lia|lia|done|done| |].
    - apply (compose_ordering_NoDup (R * C)); try done;
        by eapply permutation_of_NoDup.
    - by rewrite compose_ordering_len. }
  (* the three calls return *)
  destruct (rearrange_returns img tW tH A HvA) as [out_a Ha].
  { intros v Hv. apply HrA in Hv. simpl. fold R C. lia. }
  destruct (rearrange_frame _ _ _ _ Ha) as [Hma Hsa].
  assert (PIL.width out_a = PIL.width img ∧ PIL.height out_a = PIL.height img)
    as [Hwa Hha] by (unfold PIL.size in Hsa; by injection Hsa).
  destruct (rearrange_returns out_a tW tH B) as [out_ab Hab].
  { by rewrite Hsa. }
  { intros v Hv. apply HrB in Hv. simpl. rewrite Hwa, Hha. fold R C. lia. }
  destruct (rearrange_frame _ _ _ _ Hab) as [Hmab Hsab].
  destruct (rearrange_returns img tW tH (compose_ordering A B) HvC)
    as [out_c Hc].
  { intros v Hv. apply (compose_ordering_in_range (R * C)) in Hv; try done.
    simpl. fold R C. lia. }
  destruct (rearrange_frame _ _ _ _ Hc) as [Hmc Hsc].
  exists out_a, out_ab, out_c. split; [|split; [|split]].
  { by rewrite (rearrange_tiles_opened _ _ _ _ _ img), Ha. }
  { rewrite (rearrange_tiles_opened _ _ _ _ _ out_a), Hab; [done|].
    apply lookup_insert_eq. }
  { by rewrite (rearrange_tiles_opened _ _ _ _ _ img), Hc. }
  (* the pixels *)
  apply same_pixels_intro; [congruence..|]. intros x y Hx Hy.
  assert (PIL.width out_ab = PIL.width img ∧ PIL.height out_ab = PIL.height img)
    as [Hwab Hhab]
    by (unfold PIL.size in Hsab; injection Hsab; intros; split; congruence).
  rewrite Hwab in Hx. rewrite Hhab in Hy.
  apply exact_division in HW as HWeq; [|lia].
  apply exact_division in HH as HHeq; [|lia]. fold C in HWeq. fold R in HHeq.
  pose proof (tile_coord_bound tW C x HtW ltac:(lia)) as Hcx.
  pose proof (tile_coord_bound tH R y HtH ltac:(lia)) as Hry.
  pose proof (index_bound R C _ _ Hry Hcx) as Hi.
  assert (0 < C) as HC by lia.
  destruct (lookup_lt_is_Some_2 B (Z.to_nat (y / tH * C + x / tW)))
    as [jB HjB]; [unfold len in HlB; lia|].
  pose proof (HrB jB (list_elem_of_lookup_2 _ _ _ HjB)) as HjBr.
  destruct (compose_ordering_lookup (R * C) A B _ jB HlA HrB HjB)
    as [HjC HjA].
  set (jA := A !!! Z.to_nat jB) in *.
  pose proof (HrA jA (list_elem_of_lookup_2 _ _ _ HjA)) as HjAr.
  pose proof (index_split_bound R C jB HC HjBr) as [HjBd HjBm].
  pose proof (Z.mod_pos_bound x tW HtW) as Hxm.
  pose proof (Z.mod_pos_bound y tH HtH) as Hym.
  (* second call, read on the first output *)
  rewrite (rearrange_pixel out_a tW tH B out_ab x y jB)
    by (rewrite ?Hwa, ?Hha; fold C R; done || lia).
  rewrite Hwa. fold C.
  (* first call, at the source of that pixel *)
  rewrite (rearrange_pixel img tW tH A out_a _ _ jA); try done.
  2:{ fold C. nia. }
  2:{ fold R. nia. }
  2:{ fold C. rewrite !index_div by done.
      replace (jB / C * C + jB mod C) with jB
        by (pose proof (Z.div_mod jB C); lia).
      done. }
  (* the single call with the composed ordering *)
  rewrite (rearrange_pixel img tW tH (compose_ordering A B) out_c x y jA);
    try done; try lia.
  fold C. by rewrite !index_mod by done.
Qed.

(** Where every value of the ordering is a tile index, the tile of the
    output at destination index [i] is the source tile with index
    [ordering[i]], which is entry [ordering[i]] of the extracted tiles. *)
Lemma rearrange_places_tiles img tW tH ordering out i j :
  0 < tW → 0 < tH →
  rearrange img (tW, tH) ordering = Ok out →
  0 ≤ i < PIL.height img / tH * (PIL.width img / tW) →
  ordering !! Z.to_nat i = Some j →
  0 ≤ j < PIL.height img / tH * (PIL.width img / tW) →
  getitem (extract_tiles img tW tH (PIL.height img / tH) (PIL.width img / tW)) j
  = Ok (PIL.crop img (index_box tW tH (PIL.width img / tW) j)) ∧
  PIL.same_pixels (PIL.crop out (index_box tW tH (PIL.width img / tW) i))
                  (PIL.crop img (index_box tW tH (PIL.width img / tW) j)).
Proof.
  intros HtW HtH Hrun Hi Hj Hjr.
  destruct (tile_count_nonneg img tW tH HtW HtH) as [HC0 HR0].
  set (C := PIL.width img / tW) in *. set (R := PIL.height img / tH) in *.
  assert (0 < C) as HC by nia.
  split; [by apply getitem_extract_tiles|].
  destruct (rearrange_frame _ _ _ _ Hrun) as [Hm Hs].
  assert (PIL.width out = PIL.width img ∧ PIL.height out = PIL.height img)
    as [Hw Hh] by (unfold PIL.size in Hs; by injection Hs).
  pose proof (rearrange_Ok_accepted _ _ _ _ Hrun) as Hv.
  apply valid_input_accepted in Hv as (HW & HH & _ & _).
  apply exact_division in HW; [|lia]. apply exact_division in HH; [|lia].
  fold C in HW. fold R in HH.
  pose proof (index_split_bound R C i HC Hi) as [Hid Him].
  pose proof (index_split_bound R C j HC Hjr) as [Hjd Hjm].
  apply same_pixels_intro.
  - done.
  - unfold PIL.crop, index_box, tile_box, PIL.size, PIL.width, PIL.height.
    simpl. do 2 f_equal; lia.
  - intros x y Hx Hy.
    assert (0 ≤ x < tW ∧ 0 ≤ y < tH) as [Hxt Hyt].
    { revert Hx Hy.
      unfold PIL.crop, index_box, tile_box, PIL.width, PIL.height. simpl. lia. }
    unfold PIL.crop, index_box, tile_box, PIL.inside. simpl.
    rewrite Hw, Hh.
    rewrite !bool_decide_eq_true_2 by nia.
    rewrite (rearrange_pixel img tW tH ordering out _ _ j); try done; try nia.
    + fold C. rewrite !index_mod by done. done.
    + fold C. rewrite !index_div by done.
      replace (i / C * C + i mod C) with i
        by (pose proof (Z.div_mod i C); lia).
      done.
Qed.

(** An accepted call returns or raises [IndexError]. *)
Lemma rearrange_accepted_cases img tW tH ordering :
  valid_input (PIL.size img) (tW, tH) ordering = Ok true →
  rearrange img (tW, tH) ordering = Raise IndexError ∨
  ∃ out, rearrange img (tW, tH) ordering = Ok out.
Proof. intros Hv. rewrite rearrange_accepted by done. apply stitch_cases. Qed.

(** C4 (amended): for an image that opens and a tile size with non-zero
    components, [rearrange_tiles] raises a [ValueError] that carries the
    message "The tile size or ordering are not valid for the given image"
    if and only if [valid_input] returns false for the size of the image,
    the tile size and the ordering; its statements raise no [ValueError]
    with another message; and where every value of the ordering is a tile
    index, this is the only error that they raise. *)
Theorem rearrange_tiles_value_error
    fs image_path out_path img tW tH ordering :
  fs !! image_path = Some img →
  tW ≠ 0 → tH ≠ 0 →
  let outcome := (rearrange_tiles image_path (tW, tH) ordering out_path fs).1 in
  (outcome = Raise (ValueError invalid_message) ↔
   valid_input (PIL.size img) (tW, tH) ordering = Ok false) ∧
  (∀ msg, outcome = Raise (ValueError msg) → msg = invalid_message) ∧
  (in_range (PIL.height img / tH * (PIL.width img / tW)) ordering →
   ∀ e, outcome = Raise e → e = ValueError invalid_message).
Proof.
  intros Himg HtW HtH. cbv zeta.
  rewrite (rearrange_tiles_opened _ _ _ _ _ img) by done.
  pose proof (valid_input_nonzero (PIL.width img) (PIL.height img) tW tH
                ordering HtW HtH) as Hv.
  fold (PIL.size img) in Hv. revert Hv.
  generalize (bool_decide (PIL.width img mod tW = 0)
    && bool_decide (PIL.height img mod tH = 0)
    && (bool_decide (len ordering = len_set ordering)
        && bool_decide (len ordering =
                        PIL.height img / tH * (PIL.width img / tW)))).
  intros [] Hv.
  - split; [|split].
    + destruct (rearrange_accepted_cases img tW tH ordering Hv)
        as [->|[out ->]]; simpl; rewrite Hv; split; done.
    + intros msg.
      destruct (rearrange_accepted_cases img tW tH ordering Hv)
        as [->|[out ->]]; done.
    + intros Hrange e.
      destruct (rearrange_returns img tW tH ordering Hv) as [out ->]; [|done].
      intros v Hin. apply Hrange in Hin. simpl. lia.
  - rewrite (rearrange_rejected _ _ _ Hv). simpl. split; [|split].
    + done.
    + by intros msg [= <-].
    + by intros _ e [= <-].
Qed.

(** C5 (amended): for an image with a tile size of positive components
    that divides it exactly and an ordering of the right length without
    duplicates, [valid_input] returns true whatever the values of the
    ordering; if one of them is at least tileCount or below -tileCount,
    [rearrange_tiles] raises [IndexError] on the list of tiles and writes
    nothing; if all of them lie in [-tileCount, tileCount), negative ones
    included, there is no out-of-bounds access and the call writes its
    output. *)
Theorem unchecked_ordering_values
    fs image_path out_path img tW tH ordering :
  fs !! image_path = Some img →
  0 < tW → 0 < tH →
  PIL.width img mod tW = 0 → PIL.height img mod tH = 0 →
  NoDup ordering →
  len ordering = PIL.height img / tH * (PIL.width img / tW) →
  let n := PIL.height img / tH * (PIL.width img / tW) in
  valid_input (PIL.size img) (tW, tH) ordering = Ok true ∧
  ((∃ v, v ∈ ordering ∧ (v < - n ∨ n ≤ v)) →
   rearrange_tiles image_path (tW, tH) ordering out_path fs
   = (Raise IndexError, fs)) ∧
  ((∀ v, v ∈ ordering → - n ≤ v < n) →
   ∃ out, rearrange_tiles image_path (tW, tH) ordering out_path fs
          = (Ok (), <[out_path := out]> fs)).
Proof.
  intros Himg HtW HtH HW HH Hnd Hlen n.
  assert (valid_input (PIL.size img) (tW, tH) ordering = Ok true) as Hv
    by (apply valid_input_accepts; done || lia).
  split; [done|].
  rewrite (rearrange_tiles_opened _ _ _ _ _ img) by done. split.
  - intros (v & Hin & Hout).
    by rewrite (rearrange_index_error img tW tH ordering v).
  - intros Hrange.
    destruct (rearrange_returns img tW tH ordering Hv Hrange) as [out ->].
    eauto.
Qed.

(** C7: when [valid_input] returns false for the size of the opened
    image, [rearrange_tiles] raises and the image files are what they
    were before the call; and whatever exception a call raises, the image
    files are what they were before the call. *)
Theorem failure_writes_nothing fs image_path out_path tile_size ordering :
  (∀ img, fs !! image_path = Some img →
     valid_input (PIL.size img) tile_size ordering = Ok false →
     rearrange_tiles image_path tile_size ordering out_path fs
     = (Raise (ValueError invalid_message), fs)) ∧
  (∀ e fs', rearrange_tiles image_path tile_size ordering out_path fs
            = (Raise e, fs') → fs' = fs).
Proof.
  split.
  - intros img Himg Hv.
    by rewrite (rearrange_tiles_opened _ _ _ _ _ img), rearrange_rejected.
  - intros e fs'. unfold rearrange_tiles.
    destruct (PIL.open fs image_path) as [img|e0]; [|by intros [= _ <-]].
    destruct (rearrange img tile_size ordering); [done|by intros [= _ <-]].
Qed.

(** C8: a tile size with a zero width or a zero height makes
    [valid_input] raise [ZeroDivisionError], whatever the image size and
    the ordering: the fault comes from the divisions that compute the row
    and column counts, before any of the tests; [rearrange_tiles] does not
    catch it, so it reaches the caller. *)
Theorem zero_tile_size_raises (W Hh tW tH : Z) ordering :
  tW = 0 ∨ tH = 0 →
  valid_input (W, Hh) (tW, tH) ordering = Raise ZeroDivisionError ∧
  ∀ fs image_path out_path img,
    fs !! image_path = Some img →
    rearrange_tiles image_path (tW, tH) ordering out_path fs
    = (Raise ZeroDivisionError, fs).
Proof.
  intros Hz. split; [by apply valid_input_zero_tile|].
  intros fs image_path out_path img Himg.
  rewrite (rearrange_tiles_opened _ _ _ _ _ img) by done.
  rewrite (rearrange_faulted _ _ _ ZeroDivisionError); [done|].
  by apply valid_input_zero_tile.
Qed.

(** C9: after a call of [rearrange_tiles] that returns, the file at the
    output path holds an image with the width, the height and the colour
    mode of the image that the call opened. *)
Theorem output_keeps_size_and_mode
    fs fs' image_path out_path tile_size ordering :
  rearrange_tiles image_path tile_size ordering out_path fs = (Ok (), fs') →
  ∃ img out,
    fs !! image_path = Some img ∧ fs' !! out_path = Some out ∧
    PIL.width out = PIL.width img ∧ PIL.height out = PIL.height img ∧
    PIL.mode out = PIL.mode img.
Proof.
  unfold rearrange_tiles, PIL.open, PIL.save.
  destruct (fs !! image_path) as [img|] eqn:Himg; simpl; [|done].
  destruct (rearrange img tile_size ordering) as [out|] eqn:Hrun; [|done].
  intros [= <-]. exists img, out.
  destruct (rearrange_frame _ _ _ _ Hrun) as [Hm Hs].
  unfold PIL.size in Hs. injection Hs as Hw Hh.
  by rewrite lookup_insert_eq.
Qed.

End claims.

(** ** The properties on sample images *)

Example valid_input_scenario_2 :
  valid_input (256, 256) (127, 127) [0; 1; 2; 3] = Ok false.
Proof. vm_compute. reflexivity. Qed.

Example valid_input_scenario_5 :
  valid_input (100, 100) (30, 30) [0; 1; 2; 3; 4; 5; 6; 7; 8] = Ok false.
Proof. vm_compute. reflexivity. Qed.

(** With the accepted tile size (-1, -1) the loops do not run: the canvas is
    saved blank. *)
Example rearrange_negative_tile :
  raster <$> rearrange (sample 2 2) (-1, -1) [0; 1; 2; 3]
  = Ok [[Some 0; Some 0]; [Some 0; Some 0]].
Proof. vm_compute. reflexivity. Qed.

(** C1: the ordering [0, 1, 2, 7] for a 2 x 2 image cut into four 1 x 1
    tiles is accepted by [valid_input], and [rearrange_tiles] then raises
    [IndexError] and writes no output; the ordering [-1, 0, 1, 2] is accepted
    too and puts source tile 3 at destination 0. *)
Theorem accepted_ordering_without_output :
  valid_input (PIL.size (sample 2 2)) (1, 1) [0; 1; 2; 7] = Ok true ∧
  rearrange_tiles "in.png" (1, 1) [0; 1; 2; 7] "out.png" (sample_files 2 2)
  = (Raise IndexError, sample_files 2 2) ∧
  valid_input (PIL.size (sample 2 2)) (1, 1) [-1; 0; 1; 2] = Ok true ∧
  raster <$> rearrange (sample 2 2) (1, 1) [-1; 0; 1; 2]
  = Ok [[Some 12; Some 1]; [Some 2; Some 11]].
Proof. repeat split; vm_compute; reflexivity. Qed.

Lemma identity_ordering_round_trip_witness :
  ∃ out,
    rearrange_tiles "in.png" (2, 1)
      (identity_ordering (PIL.height (sample 4 2) / 1 * (PIL.width (sample 4 2) / 2)))
      "out.png" (sample_files 4 2)
    = (Ok (), <["out.png" := out]> (sample_files 4 2)) ∧
    PIL.same_pixels out (sample 4 2).
Proof.
  apply (identity_ordering_round_trip (sample_files 4 2) "in.png" "out.png"
           (sample 4 2) 2 1); [reflexivity|lia|lia|reflexivity|reflexivity].
Defined.

(** With the composed ordering read as [B[A[i]]], the two ways differ: for a
    3 x 1 image cut into three 1 x 1 tiles, A = [1, 2, 0] and B = [1, 0, 2],
    rearranging with A and then with B gives the pixels 3 2 1, and
    rearranging once with [B[A[i]]] = [0, 2, 1] gives 1 3 2. *)
Lemma composition_order_counterexample :
  let A := [1; 2; 0] in
  let B := [1; 0; 2] in
  let fs := sample_files 3 1 in
  let fs_a := (rearrange_tiles "in.png" (1, 1) A "a.png" fs).2 in
  let fs_ab := (rearrange_tiles "a.png" (1, 1) B "ab.png" fs_a).2 in
  let fs_c :=
    (rearrange_tiles "in.png" (1, 1) (compose_ordering B A) "c.png" fs).2 in
  permutation_of 3 A ∧ permutation_of 3 B ∧
  compose_ordering B A = [0; 2; 1] ∧
  ∃ out_ab out_c,
    fs_ab !! "ab.png" = Some out_ab ∧ fs_c !! "c.png" = Some out_c ∧
    raster out_ab = [[Some 3; Some 2; Some 1]] ∧
    raster out_c = [[Some 1; Some 3; Some 2]] ∧
    ¬ PIL.same_pixels out_ab out_c.
Proof.
  cbv zeta. split; [|split; [|split]].
  - apply (bool_decide_unpack _). vm_compute. reflexivity.
  - apply (bool_decide_unpack _). vm_compute. reflexivity.
  - reflexivity.
  - eexists _, _. split; [vm_compute; reflexivity|].
    split; [vm_compute; reflexivity|].
    split; [vm_compute; reflexivity|]. split; [vm_compute; reflexivity|].
    intros (_ & _ & Hpix). specialize (Hpix 0 0). vm_compute in Hpix. done.
Qed.

Lemma rearrange_twice_is_composition_witness :
  ∃ out_a out_ab out_c,
    rearrange_tiles "in.png" (1, 1) [1; 2; 0] "a.png" (sample_files 3 1)
    = (Ok (), <["a.png" := out_a]> (sample_files 3 1)) ∧
    rearrange_tiles "a.png" (1, 1) [1; 0; 2] "ab.png"
      (<["a.png" := out_a]> (sample_files 3 1))
    = (Ok (), <["ab.png" := out_ab]> (<["a.png" := out_a]> (sample_files 3 1))) ∧
    rearrange_tiles "in.png" (1, 1) (compose_ordering [1; 2; 0] [1; 0; 2])
      "c.png" (sample_files 3 1)
    = (Ok (), <["c.png" := out_c]> (sample_files 3 1)) ∧
    PIL.same_pixels out_ab out_c.
Proof.
  apply (rearrange_twice_is_composition (sample_files 3 1) "in.png" "a.png"
           "ab.png" "c.png" (sample 3 1) 1 1 [1; 2; 0] [1; 0; 2]);
    [reflexivity|lia|lia|reflexivity|reflexivity| |];
    apply (bool_decide_unpack _); vm_compute; reflexivity.
Defined.

(** [ValueError] is not the only error of [rearrange_tiles]: for a 4 x 2
    image cut into four 2 x 1 tiles and the ordering [0, 1, 2, 4], which the
    validator accepts, the call raises [IndexError]. *)
Lemma value_error_not_the_only_error :
  let outcome :=
    (rearrange_tiles "in.png" (2, 1) [0; 1; 2; 4] "out.png" (sample_files 4 2)).1 in
  valid_input (PIL.size (sample 4 2)) (2, 1) [0; 1; 2; 4] = Ok true ∧
  outcome = Raise IndexError ∧
  ¬ (∀ e, outcome = Raise e → ∃ msg, e = ValueError msg).
Proof.
  cbv zeta. split; [vm_compute; reflexivity|].
  assert ((rearrange_tiles "in.png" (2, 1) [0; 1; 2; 4] "out.png"
             (sample_files 4 2)).1 = Raise IndexError) as Hrun
    by (vm_compute; reflexivity).
  split; [exact Hrun|].
  intros Honly. by destruct (Honly IndexError Hrun) as [msg ?].
Qed.

Lemma rearrange_tiles_value_error_witness :
  let outcome :=
    (rearrange_tiles "in.png" (1, 1) [0; 1; 2; 2] "out.png" (sample_files 2 2)).1 in
  (outcome = Raise (ValueError invalid_message) ↔
   valid_input (PIL.size (sample 2 2)) (1, 1) [0; 1; 2; 2] = Ok false) ∧
  (∀ msg, outcome = Raise (ValueError msg) → msg = invalid_message) ∧
  (in_range (PIL.height (sample 2 2) / 1 * (PIL.width (sample 2 2) / 1))
            [0; 1; 2; 2] →
   ∀ e, outcome = Raise e → e = ValueError invalid_message).
Proof.
  apply (rearrange_tiles_value_error (sample_files 2 2) "in.png" "out.png"
           (sample 2 2) 1 1 [0; 1; 2; 2]); [reflexivity|lia|lia].
Defined.

(** A negative value that is not below -tileCount is no out-of-bounds
    access: for a 2 x 2 image cut into four 1 x 1 tiles, the ordering
    [-1, 0, 1, 2] has the right length, no duplicates and the value -1
    outside [0, 4); the validator accepts it and the call returns, tile 3
    being pasted at destination 0. *)
Lemma negative_value_counterexample :
  let ordering := [-1; 0; 1; 2] in
  len ordering = 4 ∧ NoDup ordering ∧ ¬ in_range 4 ordering ∧
  valid_input (PIL.size (sample 2 2)) (1, 1) ordering = Ok true ∧
  (rearrange_tiles "in.png" (1, 1) ordering "out.png" (sample_files 2 2)).1
  = Ok () ∧
  raster <$> rearrange (sample 2 2) (1, 1) ordering
  = Ok [[Some 12; Some 1]; [Some 2; Some 11]].
Proof.
  cbv zeta. split; [reflexivity|]. split.
  { apply (bool_decide_unpack _). vm_compute. reflexivity. }
  split.
  { intros Hrange. specialize (Hrange (-1) ltac:(left)). lia. }
  repeat split; vm_compute; reflexivity.
Qed.

Lemma unchecked_ordering_values_witness :
  let n := PIL.height (sample 2 2) / 1 * (PIL.width (sample 2 2) / 1) in
  valid_input (PIL.size (sample 2 2)) (1, 1) [0; 1; 2; 7] = Ok true ∧
  ((∃ v, v ∈ [0; 1; 2; 7] ∧ (v < - n ∨ n ≤ v)) →
   rearrange_tiles "in.png" (1, 1) [0; 1; 2; 7] "out.png" (sample_files 2 2)
   = (Raise IndexError, sample_files 2 2)) ∧
  ((∀ v, v ∈ [0; 1; 2; 7] → - n ≤ v < n) →
   ∃ out, rearrange_tiles "in.png" (1, 1) [0; 1; 2; 7] "out.png"
            (sample_files 2 2)
          = (Ok (), <["out.png" := out]> (sample_files 2 2))).
Proof.
  apply (unchecked_ordering_values (sample_files 2 2) "in.png" "out.png"
           (sample 2 2) 1 1 [0; 1; 2; 7]);
    [reflexivity|lia|lia|reflexivity|reflexivity| |reflexivity].
  apply (bool_decide_unpack _). vm_compute. reflexivity.
Defined.

Lemma failure_writes_nothing_witness :
  rearrange_tiles "in.png" (1, 1) [0; 1; 2; 2] "out.png" (sample_files 2 2)
  = (Raise (ValueError invalid_message), sample_files 2 2).
Proof.
  apply (proj1 (failure_writes_nothing (sample_files 2 2) "in.png" "out.png"
                  (1, 1) [0; 1; 2; 2]) (sample 2 2));
    [reflexivity|vm_compute; reflexivity].
Defined.

Lemma zero_tile_size_raises_witness :
  valid_input (256, 256) (0, 128) [0; 1; 2; 3] = Raise ZeroDivisionError ∧
  ∀ (fs : gmap string (PIL.Image Z)) image_path out_path img,
    fs !! image_path = Some img →
    rearrange_tiles image_path (0, 128) [0; 1; 2; 3] out_path fs
    = (Raise ZeroDivisionError, fs).
Proof.
  apply (zero_tile_size_raises 256 256 0 128 [0; 1; 2; 3]). left. reflexivity.
Defined.

Lemma output_keeps_size_and_mode_witness :
  ∃ img out,
    sample_files 4 2 !! "in.png" = Some img ∧
    (rearrange_tiles "in.png" (2, 1) [3; 2; 1; 0] "out.png" (sample_files 4 2)).2
      !! "out.png" = Some out ∧
    PIL.width out = PIL.width img ∧ PIL.height out = PIL.height img ∧
    PIL.mode out = PIL.mode img.
Proof.
  apply (output_keeps_size_and_mode (sample_files 4 2) _ "in.png" "out.png"
           (2, 1) [3; 2; 1; 0]).
  vm_compute. reflexivity.
Defined.

(** ** Further properties of the validator *)

(** X1: the validator does not look at the order of the entries: two
    orderings that are permutations of each other get the same answer, or
    the same exception. *)
Theorem valid_input_order_irrelevant (image_size tile_size : Z * Z)
    (ordering ordering' : list Z) :
  ordering ≡ₚ ordering' →
  valid_input image_size tile_size ordering
  = valid_input image_size tile_size ordering'.
Proof.
  intros Hperm. unfold valid_input, len, len_set.
  by rewrite (Permutation_length Hperm), (list_to_set_perm_L _ _ Hperm).
Qed.

Lemma valid_input_order_irrelevant_witness :
  valid_input (256, 256) (128, 128) [3; 1; 0; 2]
  = valid_input (256, 256) (128, 128) [0; 1; 2; 3].
Proof.
  apply (valid_input_order_irrelevant (256, 256) (128, 128)
           [3; 1; 0; 2] [0; 1; 2; 3]).
  apply (bool_decide_unpack _). vm_compute. reflexivity.
Defined.

Lemma mod_opp_zero_iff (a b : Z) : a mod (- b) = 0 ↔ a mod b = 0.
Proof.
  split; intros Hmod.
  - rewrite <- (Z.opp_involutive b). by apply Z_mod_zero_opp_r.
  - by apply Z_mod_zero_opp_r.
Qed.

(** X2: the validator cannot tell a tile size from its negation: with both
    components negated it returns the same answer, or raises the same
    exception, for every image size and ordering. *)
Theorem valid_input_negated_tile (W Hh tW tH : Z) (ordering : list Z) :
  valid_input (W, Hh) (- tW, - tH) ordering
  = valid_input (W, Hh) (tW, tH) ordering.
Proof.
  destruct (decide (tW = 0 ∨ tH = 0)) as [Hz|Hnz].
  - rewrite !valid_input_zero_tile; [done|done|lia].
  - rewrite !valid_input_nonzero by lia. f_equal.
    rewrite (bool_decide_ext _ _ (mod_opp_zero_iff W tW)).
    rewrite (bool_decide_ext _ _ (mod_opp_zero_iff Hh tH)).
    case_bool_decide as HW; [|done]. case_bool_decide as HH; [|done].
    rewrite (Z_div_zero_opp_r W tW HW), (Z_div_zero_opp_r Hh tH HH).
    by replace (- (Hh / tH) * - (W / tW)) with (Hh / tH * (W / tW)) by lia.
Qed.

(** ** Further properties of the rearranger *)

Lemma div_nonneg_neg (a b : Z) : 0 ≤ a → b < 0 → a / b ≤ 0.
Proof.
  intros Ha Hb. rewrite <- (Z.div_opp_opp a b) by lia.
  apply Z.div_le_upper_bound; lia.
Qed.

Lemma grid_empty (R C : Z) : R ≤ 0 ∨ C ≤ 0 → grid R C = [].
Proof.
  intros Hz. apply nil_length_inv. rewrite length_grid.
  destruct Hz; [assert (Z.to_nat R = 0%nat) as -> by lia
               |assert (Z.to_nat C = 0%nat) as -> by lia]; lia.
Qed.

Section further.
Context `{PIL.Pixel pixel}.
Implicit Types img out tile : PIL.Image pixel.
Implicit Types fs : gmap string (PIL.Image pixel).

(** Without rows or without columns the stitching loops leave the canvas as
    it is. *)
Lemma stitch_empty (tiles : list (PIL.Image pixel)) ordering tW tH R C out :
  R ≤ 0 ∨ C ≤ 0 → stitch tiles ordering tW tH R C out = Ok out.
Proof. intros Hz. by rewrite stitch_grid, grid_empty. Qed.

(** X3: a call of [rearrange_tiles] that returns has changed no file other
    than the one at the output path: every other path, the source image
    included when it is another path, holds what it held before. *)
Theorem rearrange_tiles_touches_only_out_path
    fs fs' image_path out_path tile_size ordering path :
  rearrange_tiles image_path tile_size ordering out_path fs = (Ok (), fs') →
  path ≠ out_path →
  fs' !! path = fs !! path.
Proof.
  unfold rearrange_tiles, PIL.save.
  destruct (PIL.open fs image_path) as [img|]; [|done].
  destruct (rearrange img tile_size ordering) as [out|]; [|done].
  intros [= <-] Hne. by rewrite lookup_insert_ne.
Qed.

(** X4: the test [i < len(tiles)] of line 73 holds at every iteration of the
    stitching loops, whatever the image, the tile size and the ordering: the
    tiles were collected by loops over the same rows and columns.  So every
    iteration looks up [tiles[ordering[i]]] and pastes it, or raises. *)
Theorem stitch_guard_always_holds img tW tH R C ordering r c out :
  r ∈ range R → c ∈ range C →
  r * C + c < len (extract_tiles img tW tH R C) ∧
  paste_tile (extract_tiles img tW tH R C) ordering tW tH C r c out
  = (j ← getitem ordering (r * C + c);
     tile ← getitem (extract_tiles img tW tH R C) j;
     Ok (PIL.paste out tile (c * tW, r * tH))).
Proof.
  intros Hr Hc. apply elem_of_seqZ in Hr, Hc.
  assert (r * C + c < len (extract_tiles img tW tH R C)) as Hlt.
  { rewrite len_extract_tiles by lia.
    pose proof (index_bound R C r c ltac:(lia) ltac:(lia)). lia. }
  split; [done|]. unfold paste_tile. cbv zeta.
  by rewrite bool_decide_eq_true_2.
Qed.

(** X5: for a tile size of positive components that divides the image, the
    first pair of loops collects exactly R * C tiles, each of the size of the
    tile and of the mode of the image, and they cover the image without
    overlap: the pixel of the image at (x, y) is the pixel at
    (x mod tW, y mod tH) of the tile with index (y div tH) * C + x div tW. *)
Theorem extract_tiles_partition img tW tH :
  0 < tW → 0 < tH →
  PIL.width img mod tW = 0 → PIL.height img mod tH = 0 →
  let R := PIL.height img / tH in
  let C := PIL.width img / tW in
  let tiles := extract_tiles img tW tH R C in
  len tiles = R * C ∧
  (∀ tile, tile ∈ tiles →
     PIL.size tile = (tW, tH) ∧ PIL.mode tile = PIL.mode img) ∧
  (∀ x y, 0 ≤ x < PIL.width img → 0 ≤ y < PIL.height img →
     ∃ tile, getitem tiles (y / tH * C + x / tW) = Ok tile ∧
             PIL.pixel_at tile (x mod tW) (y mod tH) = Some (PIL.pix img x y)).
Proof.
  intros HtW HtH HW HH R C tiles.
  assert (0 ≤ C ∧ 0 ≤ R) as [HC0 HR0].
  { unfold C, R, PIL.width, PIL.height. split; apply Z.div_pos; lia. }
  apply exact_division in HW; [|lia]. apply exact_division in HH; [|lia].
  fold C in HW. fold R in HH.
  split; [by apply len_extract_tiles|]. split.
  - intros tile Hin.
    apply elem_of_extract_tiles in Hin as (r & c & _ & _ & ->).
    unfold PIL.crop, tile_box, PIL.size, PIL.width, PIL.height. simpl.
    split; [f_equal; lia|done].
  - intros x y Hx Hy.
    pose proof (tile_coord_bound tW C x HtW ltac:(lia)) as Hc.
    pose proof (tile_coord_bound tH R y HtH ltac:(lia)) as Hr.
    pose proof (index_bound R C _ _ Hr Hc) as Hi.
    assert (0 < C) as HC by lia.
    eexists. split; [by apply getitem_extract_tiles|].
    pose proof (Z.mod_pos_bound x tW HtW). pose proof (Z.mod_pos_bound y tH HtH).
    pose proof (tile_offset tW x HtW). pose proof (tile_offset tH y HtH).
    unfold index_box. rewrite index_div, index_mod by done.
    unfold PIL.pixel_at, PIL.crop, tile_box, PIL.inside, PIL.width, PIL.height.
    simpl.
    rewrite bool_decide_eq_true_2 by lia.
    unfold PIL.width, PIL.height in Hx, Hy.
    rewrite bool_decide_eq_true_2 by lia.
    do 2 f_equal; lia.
Qed.

(** X6: when the validator accepts a tile size with a negative component,
    [rearrange_tiles] returns and saves the blank canvas: the loops over the
    rows and columns do not run, no tile is cut and none is pasted. *)
Theorem negative_tile_saves_blank_canvas
    fs image_path out_path img tW tH ordering :
  fs !! image_path = Some img →
  tW < 0 ∨ tH < 0 →
  valid_input (PIL.size img) (tW, tH) ordering = Ok true →
  rearrange_tiles image_path (tW, tH) ordering out_path fs
  = (Ok (), <[out_path := PIL.new (PIL.mode img) (PIL.size img)]> fs).
Proof.
  intros Himg Hneg Hv.
  rewrite (rearrange_tiles_opened _ _ _ _ _ img) by done.
  rewrite rearrange_accepted by done. rewrite stitch_empty; [done|].
  destruct Hneg; [right|left]; apply div_nonneg_neg;
    unfold PIL.width, PIL.height; lia.
Qed.

End further.

Lemma rearrange_tiles_touches_only_out_path_witness :
  (rearrange_tiles "in.png" (2, 1) [3; 2; 1; 0] "out.png" (sample_files 4 2)).2
    !! "in.png"
  = sample_files 4 2 !! "in.png".
Proof.
  apply (rearrange_tiles_touches_only_out_path (sample_files 4 2) _ "in.png"
           "out.png" (2, 1) [3; 2; 1; 0] "in.png").
  - vm_compute. reflexivity.
  - apply (bool_decide_unpack _). vm_compute. reflexivity.
Defined.

Lemma stitch_guard_always_holds_witness :
  let tiles := extract_tiles (sample 4 2) 2 1 2 2 in
  1 * 2 + 1 < len tiles ∧
  paste_tile tiles [3; 2; 1; 0] 2 1 2 1 1 (sample 4 2)
  = (j ← getitem [3; 2; 1; 0] (1 * 2 + 1);
     tile ← getitem tiles j;
     Ok (PIL.paste (sample 4 2) tile (1 * 2, 1 * 1))).
Proof.
  apply (stitch_guard_always_holds (sample 4 2) 2 1 2 2 [3; 2; 1; 0] 1 1);
    apply (bool_decide_unpack _); vm_compute; reflexivity.
Defined.

Lemma extract_tiles_partition_witness :
  let R := PIL.height (sample 4 2) / 1 in
  let C := PIL.width (sample 4 2) / 2 in
  let tiles := extract_tiles (sample 4 2) 2 1 R C in
  len tiles = R * C ∧
  (∀ tile, tile ∈ tiles →
     PIL.size tile = (2, 1) ∧ PIL.mode tile = PIL.mode (sample 4 2)) ∧
  (∀ x y, 0 ≤ x < PIL.width (sample 4 2) → 0 ≤ y < PIL.height (sample 4 2) →
     ∃ tile, getitem tiles (y / 1 * C + x / 2) = Ok tile ∧
             PIL.pixel_at tile (x mod 2) (y mod 1)
             = Some (PIL.pix (sample 4 2) x y)).
Proof.
  apply (extract_tiles_partition (sample 4 2) 2 1);
    [lia|lia|reflexivity|reflexivity].
Defined.

Lemma negative_tile_saves_blank_canvas_witness :
  rearrange_tiles "in.png" (-1, -1) [0; 1; 2; 3] "out.png" (sample_files 2 2)
  = (Ok (), <["out.png" := PIL.new (PIL.mode (sample 2 2))
                             (PIL.size (sample 2 2))]> (sample_files 2 2)).
Proof.
  apply (negative_tile_saves_blank_canvas (sample_files 2 2) "in.png" "out.png"
           (sample 2 2) (-1) (-1) [0; 1; 2; 3]);
    [reflexivity|lia|vm_compute; reflexivity].
Defined.

(** ** Where the tiles go *)

Section placement.
Context `{PIL.Pixel pixel}.
Implicit Types img out tile : PIL.Image pixel.
Implicit Types fs : gmap string (PIL.Image pixel).

(** X7: for a tile size of positive components and an ordering that the
    validator accepts and whose values are all tile indices,
    [rearrange_tiles] returns and writes an image in which, for every
    position [i] of the ordering, the tile with row-major index [i] is pixel
    for pixel the tile of the source with row-major index [ordering[i]]. *)
Theorem rearrange_tiles_places_tiles
    fs image_path out_path img tW tH ordering :
  fs !! image_path = Some img →
  0 < tW → 0 < tH →
  valid_input (PIL.size img) (tW, tH) ordering = Ok true →
  in_range (PIL.height img / tH * (PIL.width img / tW)) ordering →
  ∃ out,
    rearrange_tiles image_path (tW, tH) ordering out_path fs
    = (Ok (), <[out_path := out]> fs) ∧
    ∀ (i : nat) (j : Z), ordering !! i = Some j →
      PIL.same_pixels
        (PIL.crop out (index_box tW tH (PIL.width img / tW) (Z.of_nat i)))
        (PIL.crop img (index_box tW tH (PIL.width img / tW) j)).
Proof.
  intros Himg HtW HtH Hv Hrange.
  destruct (rearrange_returns img tW tH ordering Hv) as [out Hrun].
  { intros v Hin. apply Hrange in Hin. simpl. lia. }
  exists out. split.
  { by rewrite (rearrange_tiles_opened _ _ _ _ _ img), Hrun. }
  intros i j Hj.
  apply valid_input_accepted in Hv as (_ & _ & _ & Hlen). unfold len in Hlen.
  pose proof (lookup_lt_Some _ _ _ Hj) as Hi.
  apply (rearrange_places_tiles img tW tH ordering out (Z.of_nat i) j);
    try done.
  - lia.
  - by rewrite Nat2Z.id.
  - apply Hrange. by eapply list_elem_of_lookup_2.
Qed.

(** X8: for a tile size of positive components that divides the image and
    an ordering that is a permutation of the tile indices, no tile of the
    source is lost or repeated: every source tile is found in the written
    image at exactly one position of the ordering, pixel for pixel. *)
Theorem every_source_tile_placed_once
    fs image_path out_path img tW tH ordering :
  fs !! image_path = Some img →
  0 < tW → 0 < tH →
  PIL.width img mod tW = 0 → PIL.height img mod tH = 0 →
  permutation_of (PIL.height img / tH * (PIL.width img / tW)) ordering →
  ∃ out,
    rearrange_tiles image_path (tW, tH) ordering out_path fs
    = (Ok (), <[out_path := out]> fs) ∧
    ∀ j, 0 ≤ j < PIL.height img / tH * (PIL.width img / tW) →
      ∃ i : nat,
        ordering !! i = Some j ∧
        (∀ i' : nat, ordering !! i' = Some j → i' = i) ∧
        PIL.same_pixels
          (PIL.crop out (index_box tW tH (PIL.width img / tW) (Z.of_nat i)))
          (PIL.crop img (index_box tW tH (PIL.width img / tW) j)).
Proof.
  intros Himg HtW HtH HW HH Hp.
  pose proof (valid_input_permutation img tW tH _ HtW HtH HW HH Hp) as Hv.
  pose proof (permutation_of_in_range _ _ Hp) as Hrange.
  pose proof (permutation_of_NoDup _ _ Hp) as Hnd.
  destruct (rearrange_returns img tW tH ordering Hv) as [out Hrun].
  { intros v Hin. apply Hrange in Hin. simpl. lia. }
  exists out. split.
  { by rewrite (rearrange_tiles_opened _ _ _ _ _ img), Hrun. }
  intros j Hj.
  assert (j ∈ ordering) as Hin.
  { unfold permutation_of in Hp. rewrite Hp. apply elem_of_seqZ. lia. }
  apply list_elem_of_lookup in Hin as [i Hi]. exists i.
  split; [done|]. split.
  { intros i' Hi'. by apply (NoDup_lookup ordering i' i j). }
  apply valid_input_accepted in Hv as (_ & _ & _ & Hlen). unfold len in Hlen.
  pose proof (lookup_lt_Some _ _ _ Hi) as Hilt.
  apply (rearrange_places_tiles img tW tH ordering out (Z.of_nat i) j);
    try done; [lia|by rewrite Nat2Z.id].
Qed.

(** X9: scrambling and unscrambling.  For a tile size of positive
    components that divides the image and two permutations A and B of the
    tile indices with [A[B[i]] = i] for every [i], rearranging the image
    with A and then the result with B writes an image that equals the
    original pixel for pixel. *)
Theorem rearrange_then_undo
    fs image_path path_a path_b img tW tH A B :
  fs !! image_path = Some img →
  0 < tW → 0 < tH →
  PIL.width img mod tW = 0 → PIL.height img mod tH = 0 →
  permutation_of (PIL.height img / tH * (PIL.width img / tW)) A →
  permutation_of (PIL.height img / tH * (PIL.width img / tW)) B →
  compose_ordering A B
  = identity_ordering (PIL.height img / tH * (PIL.width img / tW)) →
  ∃ out_a out_b,
    rearrange_tiles image_path (tW, tH) A path_a fs
    = (Ok (), <[path_a := out_a]> fs) ∧
    rearrange_tiles path_a (tW, tH) B path_b (<[path_a := out_a]> fs)
    = (Ok (), <[path_b := out_b]> (<[path_a := out_a]> fs)) ∧
    PIL.same_pixels out_b img.
Proof.
  intros Himg HtW HtH HW HH HpA HpB Hinv.
  destruct (tile_count_nonneg img tW tH HtW HtH) as [HC0 HR0].
  set (C := PIL.width img / tW) in *. set (R := PIL.height img / tH) in *.
  assert (0 ≤ R * C) as Hn by nia.
  pose proof (permutation_of_in_range _ _ HpA) as HrA.
  pose proof (permutation_of_in_range _ _ HpB) as HrB.
  pose proof (permutation_of_len _ _ Hn HpA) as HlA.
  pose proof (permutation_of_len _ _ Hn HpB) as HlB.
  pose proof (valid_input_permutation img tW tH _ HtW HtH HW HH HpA) as HvA.
  pose proof (valid_input_permutation img tW tH _ HtW HtH HW HH HpB) as HvB.
  destruct (rearrange_returns img tW tH A HvA) as [out_a Ha].
  { intros v Hv. apply HrA in Hv. simpl. fold R C. lia. }
  destruct (rearrange_frame _ _ _ _ Ha) as [Hma Hsa].
  assert (PIL.width out_a = PIL.width img ∧ PIL.height out_a = PIL.height img)
    as [Hwa Hha] by (unfold PIL.size in Hsa; by injection Hsa).
  destruct (rearrange_returns out_a tW tH B) as [out_b Hb].
  { by rewrite Hsa. }
  { intros v Hv. apply HrB in Hv. simpl. rewrite Hwa, Hha. fold R C. lia. }
  destruct (rearrange_frame _ _ _ _ Hb) as [Hmb Hsb].
  exists out_a, out_b. split; [|split].
  { by rewrite (rearrange_tiles_opened _ _ _ _ _ img), Ha. }
  { rewrite (rearrange_tiles_opened _ _ _ _ _ out_a), Hb; [done|].
    apply lookup_insert_eq. }
  apply same_pixels_intro; [congruence..|]. intros x y Hx Hy.
  assert (PIL.width out_b = PIL.width img ∧ PIL.height out_b = PIL.height img)
    as [Hwb Hhb]
    by (unfold PIL.size in Hsb; injection Hsb; intros; split; congruence).
  rewrite Hwb in Hx. rewrite Hhb in Hy.
  apply exact_division in HW as HWeq; [|lia].
  apply exact_division in HH as HHeq; [|lia]. fold C in HWeq. fold R in HHeq.
  pose proof (tile_coord_bound tW C x HtW ltac:(lia)) as Hcx.
  pose proof (tile_coord_bound tH R y HtH ltac:(lia)) as Hry.
  pose proof (index_bound R C _ _ Hry Hcx) as Hi.
  assert (0 < C) as HC by lia.
  destruct (lookup_lt_is_Some_2 B (Z.to_nat (y / tH * C + x / tW)))
    as [jB HjB]; [unfold len in HlB; lia|].
  pose proof (HrB jB (list_elem_of_lookup_2 _ _ _ HjB)) as HjBr.
  destruct (compose_ordering_lookup (R * C) A B _ jB HlA HrB HjB)
    as [HjC HjA].
  (* entry i of the composition is i *)
  rewrite Hinv in HjC. unfold identity_ordering, range in HjC.
  rewrite lookup_seqZ_lt in HjC by lia. injection HjC as HjC.
  rewrite <- HjC in HjA.
  pose proof (index_split_bound R C jB HC HjBr) as [HjBd HjBm].
  pose proof (Z.mod_pos_bound x tW HtW) as Hxm.
  pose proof (Z.mod_pos_bound y tH HtH) as Hym.
  rewrite (rearrange_pixel out_a tW tH B out_b x y jB)
    by (rewrite ?Hwa, ?Hha; fold C R; done || lia).
  rewrite Hwa. fold C.
  rewrite (rearrange_pixel img tW tH A out_a _ _
             (0 + Z.of_nat (Z.to_nat (y / tH * C + x / tW)))); try done.
  2:{ fold C. nia. }
  2:{ fold R. nia. }
  2:{ fold C. rewrite !index_div by done.
      replace (jB / C * C + jB mod C) with jB
        by (pose proof (Z.div_mod jB C); lia).
      done. }
  2:{ fold C R. lia. }
  fold C. rewrite !index_mod by done.
  replace (0 + Z.of_nat (Z.to_nat (y / tH * C + x / tW)))
    with (y / tH * C + x / tW) by lia.
  rewrite index_div, index_mod by done.
  pose proof (tile_offset tW x HtW). pose proof (tile_offset tH y HtH).
  f_equal; lia.
Qed.

End placement.

Lemma rearrange_tiles_places_tiles_witness :
  ∃ out,
    rearrange_tiles "in.png" (2, 1) [3; 2; 1; 0] "out.png" (sample_files 4 2)
    = (Ok (), <["out.png" := out]> (sample_files 4 2)) ∧
    ∀ (i : nat) (j : Z), [3; 2; 1; 0] !! i = Some j →
      PIL.same_pixels
        (PIL.crop out (index_box 2 1 (PIL.width (sample 4 2) / 2) (Z.of_nat i)))
        (PIL.crop (sample 4 2) (index_box 2 1 (PIL.width (sample 4 2) / 2) j)).
Proof.
  apply (rearrange_tiles_places_tiles (sample_files 4 2) "in.png" "out.png"
           (sample 4 2) 2 1 [3; 2; 1; 0]);
    [reflexivity|lia|lia|vm_compute; reflexivity|].
  apply permutation_of_in_range.
  apply (bool_decide_unpack _). vm_compute. reflexivity.
Defined.

Lemma every_source_tile_placed_once_witness :
  ∃ out,
    rearrange_tiles "in.png" (2, 1) [3; 2; 1; 0] "out.png" (sample_files 4 2)
    = (Ok (), <["out.png" := out]> (sample_files 4 2)) ∧
    ∀ j, 0 ≤ j < PIL.height (sample 4 2) / 1 * (PIL.width (sample 4 2) / 2) →
      ∃ i : nat,
        [3; 2; 1; 0] !! i = Some j ∧
        (∀ i' : nat, [3; 2; 1; 0] !! i' = Some j → i' = i) ∧
        PIL.same_pixels
          (PIL.crop out (index_box 2 1 (PIL.width (sample 4 2) / 2) (Z.of_nat i)))
          (PIL.crop (sample 4 2) (index_box 2 1 (PIL.width (sample 4 2) / 2) j)).
Proof.
  apply (every_source_tile_placed_once (sample_files 4 2) "in.png" "out.png"
           (sample 4 2) 2 1 [3; 2; 1; 0]);
    [reflexivity|lia|lia|reflexivity|reflexivity|].
  apply (bool_decide_unpack _). vm_compute. reflexivity.
Defined.

Lemma rearrange_then_undo_witness :
  ∃ out_a out_b,
    rearrange_tiles "in.png" (1, 1) [1; 2; 0] "a.png" (sample_files 3 1)
    = (Ok (), <["a.png" := out_a]> (sample_files 3 1)) ∧
    rearrange_tiles "a.png" (1, 1) [2; 0; 1] "b.png"
      (<["a.png" := out_a]> (sample_files 3 1))
    = (Ok (), <["b.png" := out_b]> (<["a.png" := out_a]> (sample_files 3 1))) ∧
    PIL.same_pixels out_b (sample 3 1).
Proof.
  apply (rearrange_then_undo (sample_files 3 1) "in.png" "a.png" "b.png"
           (sample 3 1) 1 1 [1; 2; 0] [2; 0; 1]);
    [reflexivity|lia|lia|reflexivity|reflexivity| | |reflexivity];
    apply (bool_decide_unpack _); vm_compute; reflexivity.
Defined.

(** ** Negative values in the ordering *)

Section wrapping.
Context `{PIL.Pixel pixel}.
Implicit Types img out tile : PIL.Image pixel.
Implicit Types fs : gmap string (PIL.Image pixel).

(** A valid Python index [j] into the tiles, negative or not, gives the tile
    with row-major index [j mod (R * C)]. *)
Lemma getitem_extract_tiles_wrapped img (tW tH R C j : Z) :
  0 < C → - (R * C) ≤ j < R * C →
  getitem (extract_tiles img tW tH R C) j =
  Ok (PIL.crop img (index_box tW tH C (j mod (R * C)))).
Proof.
  intros HC Hj. assert (0 < R) as HR by nia.
  destruct (decide (j < 0)) as [Hneg|Hpos].
  - rewrite getitem_neg by done. rewrite len_extract_tiles by lia.
    rewrite bool_decide_eq_false_2 by lia.
    rewrite getitem_extract_tiles by (done || lia).
    do 3 f_equal. apply (Z.mod_unique j (R * C) (-1)); lia.
  - rewrite getitem_extract_tiles by (done || lia).
    by rewrite Z.mod_small by lia.
Qed.

(** The pixel of the stitched canvas at (x, y), for an ordering entry [j]
    that is a valid Python index. *)
Lemma stitch_pixel_wrapped img tW tH R C ordering out0 out x y j :
  0 < tW → 0 < tH →
  PIL.width img = C * tW → PIL.height img = R * tH →
  stitch (extract_tiles img tW tH R C) ordering tW tH R C out0 = Ok out →
  0 ≤ x < C * tW → 0 ≤ y < R * tH →
  getitem ordering (y / tH * C + x / tW) = Ok j →
  - (R * C) ≤ j < R * C →
  PIL.pix out x y =
  PIL.pix img (j mod (R * C) mod C * tW + x mod tW)
              (j mod (R * C) / C * tH + y mod tH).
Proof.
  intros HtW HtH Hwidth Hheight Hrun Hx Hy Hj Hjr.
  assert (0 < C) as HC by nia. assert (0 < R) as HR by nia.
  pose proof (tile_coord_bound tW C x HtW Hx) as Hcx.
  pose proof (tile_coord_bound tH R y HtH Hy) as Hry.
  pose proof (Z.mod_pos_bound j (R * C) ltac:(nia)) as Hjw.
  rewrite stitch_grid in Hrun.
  refine (for_in_invariant (λ l o, (y / tH, x / tW) ∈ l →
            PIL.pix o x y =
            PIL.pix img (j mod (R * C) mod C * tW + x mod tW)
                        (j mod (R * C) / C * tH + y mod tH))
            _ _ _ _ _ _ Hrun _).
  - intros Hin. by apply elem_of_nil in Hin.
  - intros l [r c] t t' Hrc Hl Hstep Hin. simpl in Hstep.
    apply elem_of_grid in Hrc as [Hr Hc].
    apply paste_tile_inv in Hstep as [(_ & j' & tile & Hj' & Htile & ->)|[Hge _]].
    2:{ rewrite len_extract_tiles in Hge by lia.
        pose proof (index_bound R C r c Hr Hc). lia. }
    destruct (decide ((r, c) = (y / tH, x / tW))) as [[= -> ->]|Hne].
    + rewrite Hj in Hj'. injection Hj' as <-.
      rewrite getitem_extract_tiles_wrapped in Htile by done.
      injection Htile as <-.
      pose proof (index_split_bound R C _ HC Hjw) as [Hjd Hjm].
      pose proof (Z.mod_pos_bound x tW HtW). pose proof (Z.mod_pos_bound y tH HtH).
      unfold PIL.paste, PIL.crop, index_box, tile_box, PIL.inside,
        PIL.width, PIL.height in *. simpl.
      rewrite !tile_offset by done.
      rewrite bool_decide_eq_true_2 by lia.
      rewrite bool_decide_eq_true_2 by nia. done.
    + apply getitem_elem_of, elem_of_extract_tiles in Htile
        as (r' & c' & _ & _ & ->).
      unfold PIL.paste, PIL.crop, tile_box, PIL.inside,
        PIL.width, PIL.height. simpl.
      rewrite bool_decide_eq_false_2.
      * apply Hl. apply elem_of_app in Hin as [Hin|Hin]; [done|].
        apply list_elem_of_singleton in Hin. congruence.
      * intros [Hx' Hy']. apply Hne. f_equal; apply tile_coord; lia.
  - by apply elem_of_grid.
Qed.

(** X10: whenever [rearrange_tiles] returns for a tile size of positive
    components, every value [j] of the ordering lies in
    [-tileCount, tileCount), and the tile of the written image at position
    [i] of the ordering is, pixel for pixel, the source tile with row-major
    index [j mod tileCount]: a negative value counts from the last tile. *)
Theorem returned_call_wraps_negative_values
    fs fs' image_path out_path tW tH ordering :
  0 < tW → 0 < tH →
  rearrange_tiles image_path (tW, tH) ordering out_path fs = (Ok (), fs') →
  ∃ img out,
    fs !! image_path = Some img ∧ fs' !! out_path = Some out ∧
    ∀ (i : nat) (j : Z), ordering !! i = Some j →
      let C := PIL.width img / tW in
      let n := PIL.height img / tH * C in
      - n ≤ j < n ∧
      PIL.same_pixels (PIL.crop out (index_box tW tH C (Z.of_nat i)))
                      (PIL.crop img (index_box tW tH C (j mod n))).
Proof.
  intros HtW HtH. unfold rearrange_tiles, PIL.open, PIL.save.
  destruct (fs !! image_path) as [img|] eqn:Himg; simpl; [|done].
  destruct (rearrange img (tW, tH) ordering) as [out|] eqn:Hrun; [|done].
  intros [= <-]. exists img, out. split; [done|].
  split; [by rewrite lookup_insert_eq|]. intros i j Hj. cbv zeta.
  set (C := PIL.width img / tW). set (n := PIL.height img / tH * C).
  pose proof (rearrange_Ok_accepted _ _ _ _ Hrun) as Hv.
  assert (- n ≤ j < n) as Hjr.
  { destruct (decide (- n ≤ j < n)) as [|Hout]; [done|].
    rewrite (rearrange_index_error img tW tH ordering j) in Hrun; try done.
    - by eapply list_elem_of_lookup_2.
    - simpl. fold C n. lia. }
  split; [done|].
  destruct (rearrange_frame _ _ _ _ Hrun) as [Hm Hs].
  assert (PIL.width out = PIL.width img ∧ PIL.height out = PIL.height img)
    as [Hw Hh] by (unfold PIL.size in Hs; by injection Hs).
  rewrite rearrange_accepted in Hrun by done.
  apply valid_input_accepted in Hv as (HW & HH & _ & Hlen).
  apply exact_division in HW; [|lia]. apply exact_division in HH; [|lia].
  destruct (tile_count_nonneg img tW tH HtW HtH) as [HC0 HR0].
  fold C in HW, HC0, Hrun, Hlen.
  set (R := PIL.height img / tH) in *.
  assert (n = R * C) as Hn by done.
  assert (0 < C) as HC by nia.
  pose proof (lookup_lt_Some _ _ _ Hj) as Hi. unfold len in Hlen.
  pose proof (index_split_bound R C (Z.of_nat i) HC ltac:(lia)) as [Hid Him].
  pose proof (Z.mod_pos_bound j n ltac:(lia)) as Hjw.
  pose proof (index_split_bound R C (j mod n) HC ltac:(lia)) as [Hjd Hjm].
  apply same_pixels_intro.
  - done.
  - unfold PIL.crop, index_box, tile_box, PIL.size, PIL.width, PIL.height.
    simpl. do 2 f_equal; lia.
  - intros x y Hx Hy.
    assert (0 ≤ x < tW ∧ 0 ≤ y < tH) as [Hxt Hyt].
    { revert Hx Hy.
      unfold PIL.crop, index_box, tile_box, PIL.width, PIL.height. simpl. lia. }
    unfold PIL.crop, index_box, tile_box, PIL.inside. simpl.
    rewrite Hw, Hh.
    rewrite !bool_decide_eq_true_2 by nia.
    rewrite (stitch_pixel_wrapped img tW tH R C ordering
               (PIL.new (PIL.mode img) (PIL.size img)) out _ _ j);
      try done; try nia.
    + rewrite <- Hn. rewrite !index_mod by done. done.
    + rewrite !index_div by done.
      replace (Z.of_nat i / C * C + Z.of_nat i mod C) with (Z.of_nat i)
        by (pose proof (Z.div_mod (Z.of_nat i) C); lia).
      apply getitem_Ok; [lia|]. by rewrite Nat2Z.id.
Qed.

End wrapping.

Lemma returned_call_wraps_negative_values_witness :
  ∃ img out,
    sample_files 2 2 !! "in.png" = Some img ∧
    (rearrange_tiles "in.png" (1, 1) [-1; 0; 1; 2] "out.png"
       (sample_files 2 2)).2 !! "out.png" = Some out ∧
    ∀ (i : nat) (j : Z), [-1; 0; 1; 2] !! i = Some j →
      let C := PIL.width img / 1 in
      let n := PIL.height img / 1 * C in
      - n ≤ j < n ∧
      PIL.same_pixels (PIL.crop out (index_box 1 1 C (Z.of_nat i)))
                      (PIL.crop img (index_box 1 1 C (j mod n))).
Proof.
  apply (returned_call_wraps_negative_values (sample_files 2 2) _ "in.png"
           "out.png" 1 1 [-1; 0; 1; 2]); [lia|lia|].
  vm_compute. reflexivity.
Defined.
